(** * PostgresEntityStore: a shallow embedding and its properties

    The development follows
    [packages/core/src/database/entity/postgresEntityStore.ts] and the
    where-clause builder [buildWhereObject] of the GraphQL plural field.

    JavaScript objects are represented by their own enumerable entries in
    [Object.entries] order; objects that the code shares or mutates live in a
    heap and are handled through their locations.  Numbers are the integers
    (the code never computes with fractions).  A thrown exception and a
    rejected promise are both the outcome [Throw]. *)

From Stdlib Require Import ZArith Ascii String List Lia.
From stdpp Require Import base option list strings pretty gmap.

Open Scope Z_scope.
Open Scope string_scope.
Open Scope list_scope.

(** ** JavaScript values and objects *)

Set Warnings "-register-all".

Inductive Value : Type :=
| VUndefined
| VNull
| VBool (b : bool)
| VNumber (n : Z)
| VString (s : string)
| VArray (items : list Value).

(** An object literal or row: its entries, keys pairwise distinct. *)
Abbreviation Obj := (list (string * Value)).

Definition keys (o : Obj) : list string := map fst o.

(** [o[k]] *)
Fixpoint obj_get {V} (k : string) (o : list (string * V)) : option V :=
  match o with
  | [] => None
  | (k', v) :: o' => if String.eqb k' k then Some v else obj_get k o'
  end.

(** [o[k] = v]: an existing property keeps its place, a new one goes last
    (the keys are field names, not array indices). *)
Fixpoint obj_set {V} (k : string) (v : V) (o : list (string * V)) : list (string * V) :=
  match o with
  | [] => [(k, v)]
  | (k', v') :: o' =>
      if String.eqb k' k then (k, v) :: o' else (k', v') :: obj_set k v o'
  end.

(** The members of [Object.prototype], each with the text it has as a
    property key.  A lookup [o[k]] on an object literal finds them when [o]
    has no property [k] of its own; all of them are truthy. *)
Definition Object_prototype : list (string * string) :=
  [ ("constructor", "function Object() { [native code] }");
    ("__defineGetter__", "function __defineGetter__() { [native code] }");
    ("__defineSetter__", "function __defineSetter__() { [native code] }");
    ("hasOwnProperty", "function hasOwnProperty() { [native code] }");
    ("__lookupGetter__", "function __lookupGetter__() { [native code] }");
    ("__lookupSetter__", "function __lookupSetter__() { [native code] }");
    ("isPrototypeOf", "function isPrototypeOf() { [native code] }");
    ("propertyIsEnumerable", "function propertyIsEnumerable() { [native code] }");
    ("toString", "function toString() { [native code] }");
    ("valueOf", "function valueOf() { [native code] }");
    ("__proto__", "[object Object]");
    ("toLocaleString", "function toLocaleString() { [native code] }") ].

Definition inherited (name : string) : bool :=
  match obj_get name Object_prototype with
  | Some _ => true
  | None => false
  end.

(** What a variable of object type may hold at run time. *)
Inductive Ref : Type :=
| RUndefined
| RObj (l : nat).

(** ** Exceptions and results *)

Inductive Exn : Type :=
| Error (message : string)
| TypeError (message : string)
| SyntaxError (message : string)
| DatabaseError (message : string).

Inductive Result (A : Type) : Type :=
| Ok (a : A)
| Throw (e : Exn).

Arguments Ok {A} a.
Arguments Throw {A} e.

Definition Uninitialized : Exn :=
  Error "EntityStore has not been initialized with a schema yet".

Definition EntityNotFoundForId (entityId : string) : Exn :=
  Error ("Entity not found in schema for ID: " +:+ entityId).

Definition EntityNotFoundForName (name : string) : Exn :=
  Error ("Entity not found in schema for name: " +:+ name).

Definition DerivedFieldNotFound (entityName derivedFieldName : string) : Exn :=
  Error ("Derived field not found: " +:+ entityName +:+ "." +:+ derivedFieldName).

Definition UnknownFilterType (filterType : string) : Exn :=
  Error ("SQL operators not found for filter type: " +:+ filterType).

Definition UnknownWhereCondition (fieldName condition : string) : Exn :=
  Error ("Invalid query: Unknown where condition: " +:+ fieldName +:+ "_" +:+ condition).

(** [Object.entries(undefined)] *)
Definition EntriesOfUndefined : Exn :=
  TypeError "Cannot convert undefined or null to object".

(** [field.baseGqlType.toString()] when [field] is not a field and has no
    [baseGqlType]. *)
Definition ToStringOfUndefined : Exn :=
  TypeError "Cannot read properties of undefined (reading 'toString')".

(** ** Schema model ([@/schema/types]) *)

(** Modelled from the spec: the declaration of [FieldKind] in
    [@/schema/types] is not among the sources; the kinds are those the spec
    distinguishes (scalar, list, derived), of which the store names
    [FieldKind.LIST] and [FieldKind.DERIVED]. *)
Inductive FieldKind : Type := SCALAR | LIST | DERIVED.

Definition FieldKind_eqb (a b : FieldKind) : bool :=
  match a, b with
  | SCALAR, SCALAR | LIST, LIST | DERIVED, DERIVED => true
  | _, _ => false
  end.

(** The properties of a field that the store reads.  [field_baseGqlType] is
    [field.baseGqlType.toString()]. *)
Record Field : Type := {
  field_name : string;
  field_kind : FieldKind;
  field_baseGqlType : string;
  field_migrateUpStatement : string;
  field_derivedFromEntityName : string;
  field_derivedFromFieldName : string
}.

Record Entity : Type := {
  entity_id : string;
  entity_name : string;
  entity_fields : list Field;
  entity_fieldByName : gmap string Field
}.

Record Schema : Type := {
  entities : list Entity
}.

(** ** The filter of a list call ([EntityFilter]) *)

Record EntityFilter : Type := {
  filter_where : option Obj;
  filter_first : option Z;
  filter_skip : option Z;
  filter_orderBy : option string;
  filter_orderDirection : option string
}.

(** JavaScript truthiness of an optional number and of an optional string. *)
Definition truthy_number (n : option Z) : bool :=
  match n with
  | Some n => negb (Z.eqb n 0)
  | None => false
  end.

Definition truthy_string (s : option string) : bool :=
  match s with
  | Some s => negb (String.eqb s EmptyString)
  | None => false
  end.

(** [key.split(re)] for the pattern [re] of the source, an underscore
    followed by a capture group that takes every remaining character: the
    pattern matches from the first underscore to the end of the key, so the
    pieces are the text before that underscore, the captured rest, and the
    empty string after the match; a key without an underscore is returned
    whole. *)
Fixpoint split_first_underscore (key : string) : string * option string :=
  match key with
  | EmptyString => (EmptyString, None)
  | String c rest =>
      if Ascii.eqb c "_"%char then (EmptyString, Some rest)
      else let (before, after) := split_first_underscore rest in
           (String c before, after)
  end.

Definition split_key (key : string) : list string :=
  match split_first_underscore key with
  | (before, None) => [before]
  | (before, Some captured) => [before; captured; EmptyString]
  end.

Fixpoint has_underscore (s : string) : bool :=
  match s with
  | EmptyString => false
  | String c rest => Ascii.eqb c "_"%char || has_underscore rest
  end.

(** ** The pairs handed to the backend *)

Record ColumnValuePair : Type := {
  column : string;
  value : Value
}.

Record QueryResult : Type := {
  rows : list Obj;
  rowCount : nat
}.

(** [xs.join(sep)] *)
Definition join (sep : string) (xs : list string) : string :=
  String.concat sep xs.

(** The double quote, and a name between double quotes. *)
Definition dq : string := String (ascii_of_nat 34) EmptyString.

Definition quoted (name : string) : string := dq +:+ name +:+ dq.

(** [`$${idx + 1}`] *)
Definition placeholder (idx : nat) : string :=
  "$" +:+ pretty (Z.of_nat idx + 1).

(** ** The store *)

(** What the store is linked against.

    - The connection pool: [pool.query(statement, values)] answers with a
      result or rejects, and moves the database to a new state.
    - [JSON.parse] of the host.
    - The imports from [./utils], which is not among the sources: the
      operator table (an entry is absent when the lookup yields [undefined]),
      the renderer of one condition and the encoder of an instance. *)
Class Env : Type := {
  DB : Type;
  pool_query : string -> list Value -> DB -> Result QueryResult * DB;
  JSON_parse : Value -> Result Value;
  SqlSymbols : Type;
  sqlSymbolsForFilterType : gmap string SqlSymbols;
  getWhereValue : Value -> SqlSymbols -> Result string;
  getColumnValuePairs : Obj -> list ColumnValuePair
}.

Section Monad.

Context `{Env}.

(** The store object ([this.schema], [this.pool]) together with the
    JavaScript heap and the record of the statements sent so far, each with
    its list of bound values. *)
Record State : Type := {
  schema : option Schema;
  heap : list Obj;
  pool : DB;
  issued : list (string * list Value)
}.

Definition M (A : Type) : Type := State -> Result A * State.

Definition ret {A} (a : A) : M A := fun st => (Ok a, st).

Definition throw {A} (e : Exn) : M A := fun st => (Throw e, st).

Definition bind {A B} (m : M A) (k : A -> M B) : M B :=
  fun st =>
    match m st with
    | (Ok a, st') => k a st'
    | (Throw e, st') => (Throw e, st')
    end.

Definition lift {A} (r : Result A) : M A := fun st => (r, st).

Definition get_schema : M (option Schema) := fun st => (Ok (schema st), st).

Definition set_schema (s : Schema) : M unit :=
  fun st => (Ok tt, {| schema := Some s; heap := heap st; pool := pool st;
                       issued := issued st |}).

Definition set_heap (h : list Obj) (st : State) : State :=
  {| schema := schema st; heap := h; pool := pool st; issued := issued st |}.

(** A new object. *)
Definition alloc (o : Obj) : M nat :=
  fun st => (Ok (length (heap st)), set_heap (heap st ++ [o]) st).

(** [obj[k] = v] on the object at [l]; a location that holds no object is
    not a value that the code can have. *)
Definition write (l : nat) (k : string) (v : Value) : M unit :=
  fun st =>
    match heap st !! l with
    | Some o => (Ok tt, set_heap (<[l := obj_set k v o]> (heap st)) st)
    | None => (Ok tt, st)
    end.

Definition read (l : nat) : M Obj :=
  fun st => (Ok (default [] (heap st !! l)), st).

(** [Object.entries(instance)] *)
Definition Object_entries (instance : Ref) : M Obj :=
  match instance with
  | RUndefined => throw EntriesOfUndefined
  | RObj l => read l
  end.

(** The call of [this.pool.query(statement, values)], recorded. *)
Definition send (statement : string) (values : list Value) : M QueryResult :=
  fun st =>
    let (r, db) := pool_query statement values (pool st) in
    (r, {| schema := schema st; heap := heap st; pool := db;
           issued := issued st ++ [(statement, values)] |}).

End Monad.

Notation "'do' x <- m ; k" := (bind m (fun x => k))
  (at level 10, x name, m at level 100, k at level 200).
Notation "m ;; k" := (bind m (fun _ => k))
  (at level 100, k at level 200, right associativity).

Section Store.

Context `{Env}.

(** [{ ...instance }] *)
Definition spread (instance : Ref) : M nat :=
  match instance with
  | RUndefined => alloc []
  | RObj l => do o <- read l; alloc o
  end.

Fixpoint alloc_rows (rs : list Obj) : M (list nat) :=
  match rs with
  | [] => ret []
  | r :: rs' => do l <- alloc r; do ls <- alloc_rows rs'; ret (l :: ls)
  end.

(** [const { rows, rowCount } = await this.pool.query(statement, values)];
    the rows of the answer are new objects. *)
Definition query (statement : string) (values : list Value) : M (list nat * nat) :=
  do res <- send statement values;
  do ls <- alloc_rows (rows res);
  ret (ls, rowCount res).

(** [rows[i]] *)
Definition row_at (ls : list nat) (i : nat) : Ref :=
  match ls !! i with
  | Some l => RObj l
  | None => RUndefined
  end.

Fixpoint forEach {A} (xs : list A) (f : A -> M unit) : M unit :=
  match xs with
  | [] => ret tt
  | x :: xs' => f x ;; forEach xs' f
  end.

Fixpoint mapM {A B} (f : A -> M B) (xs : list A) : M (list B) :=
  match xs with
  | [] => ret []
  | x :: xs' => do y <- f x; do ys <- mapM f xs'; ret (y :: ys)
  end.

(** [errorWrapper]: the wrapped operation checks [this.schema] when it is
    called. *)
Definition errorWrapper {A} (fn : M A) : M A :=
  do s <- get_schema;
  match s with
  | None => throw Uninitialized
  | Some _ => fn
  end.

(** [this.schema?.entities.find(pred)] *)
Definition find_entity (pred : Entity -> bool) (s : option Schema) : option Entity :=
  match s with
  | Some sch => List.find pred (entities sch)
  | None => None
  end.

(** The callback of [deserialize], for one property of the row; [d] is
    [deserializedInstance].  [entity_fieldByName] holds the properties that
    [entity.fieldByName] has of its own; for another name the lookup yields
    [undefined], or the member of [Object.prototype] of that name, which
    passes the test [!field] and has no [baseGqlType]. *)
Definition deserialize_property (entity : Entity) (d : nat)
    (entry : string * Value) : M unit :=
  let (fieldName, value) := entry in
  match entity_fieldByName entity !! fieldName with
  | None => if inherited fieldName then throw ToStringOfUndefined else ret tt
  | Some field =>
      if String.eqb (field_baseGqlType field) "Boolean" then
        write d fieldName
          (VBool match value with VNumber 1 => true | _ => false end)
      else if FieldKind_eqb (field_kind field) LIST then
        do parsed <- lift (JSON_parse value);
        write d fieldName parsed
      else
        write d fieldName value
  end.

Definition deserialize (entityId : string) (instance : Ref) : M nat :=
  do s <- get_schema;
  match s with
  | None => throw Uninitialized
  | Some _ =>
      match find_entity (fun e => String.eqb (entity_id e) entityId) s with
      | None => throw (EntityNotFoundForId entityId)
      | Some entity =>
          do deserializedInstance <- spread instance;
          do entries <- Object_entries instance;
          forEach entries (deserialize_property entity deserializedInstance) ;;
          ret deserializedInstance
      end
  end.

(** [await Promise.all(xs.map(async (x) => ...))]: [map] runs every
    callback up to its [await], so the statements are sent in the order of
    the list; one rejection rejects the whole, the remaining statements
    having been sent all the same. *)
Fixpoint Promise_all (ms : list (M unit)) : M unit :=
  match ms with
  | [] => ret tt
  | m :: ms' =>
      fun st =>
        match m st with
        | (Ok _, st') => Promise_all ms' st'
        | (Throw e, st') => (Throw e, snd (Promise_all ms' st'))
        end
  end.

Definition teardown : M unit :=
  do s <- get_schema;
  match s with
  | None => ret tt
  | Some sch =>
      Promise_all
        (map (fun entity =>
                query ("DROP TABLE IF EXISTS " +:+ quoted (entity_id entity)) [] ;;
                ret tt)
             (entities sch))
  end.

Definition load (newSchema : option Schema) : M unit :=
  do s <- get_schema;
  match s with
  | Some _ => teardown
  | None => ret tt
  end ;;
  match newSchema with
  | Some sch => set_schema sch
  | None => ret tt
  end ;;
  do s <- get_schema;
  match s with
  | None => ret tt
  | Some sch =>
      Promise_all
        (map (fun entity =>
                let columnStatements :=
                  map field_migrateUpStatement
                    (List.filter
                       (fun field => negb (FieldKind_eqb (field_kind field) DERIVED))
                       (entity_fields entity)) in
                query ("CREATE TABLE " +:+ quoted (entity_id entity) +:+ " ("
                       +:+ join ", " columnStatements +:+ ")") [] ;;
                ret tt)
             (entities sch))
  end.

(** [null] is [None]. *)
Definition getEntity (entityId id : string) : M (option nat) :=
  errorWrapper (
    let statement :=
      "SELECT " +:+ quoted entityId +:+ ".* FROM " +:+ quoted entityId
      +:+ " WHERE " +:+ quoted entityId +:+ "." +:+ quoted "id" +:+ " = $1" in
    do res <- query statement [VString id];
    let (rows, rowCount) := res in
    if Nat.eqb rowCount 0 then ret None
    else do r <- deserialize entityId (row_at rows 0); ret (Some r)).

(** [(columns) VALUES ($1, ..., $n)] *)
Definition insertFragment_of (pairs : list ColumnValuePair) : string :=
  "(" +:+ join ", " (map column pairs) +:+ ") VALUES ("
  +:+ join ", " (imap (fun idx _ => placeholder idx) (map value pairs)) +:+ ")".

(** The statement of [insertEntity]. *)
Definition insertStatement (entityId : string) (pairs : list ColumnValuePair)
    : string :=
  let insertFragment := insertFragment_of pairs in
  "INSERT INTO " +:+ quoted entityId +:+ " " +:+ insertFragment +:+ " RETURNING *".

(** The statement of [updateEntity]; the id is bound after the values. *)
Definition updateStatement (entityId : string)
    (updatePairs : list ColumnValuePair) : string :=
  let updateFragment :=
    join ", "
      (imap (fun idx p => column p +:+ " = " +:+ placeholder idx) updatePairs) in
  "UPDATE " +:+ quoted entityId +:+ " SET " +:+ updateFragment
  +:+ " WHERE " +:+ quoted "id" +:+ " = " +:+ placeholder (length updatePairs)
  +:+ " RETURNING *".

(** [instance] is the caller's object. *)
Definition insertEntity (entityId id : string) (instance : nat) : M nat :=
  errorWrapper (
    write instance "id" (VString id) ;;
    do o <- read instance;
    let pairs := getColumnValuePairs o in
    let insertValues := map value pairs in
    let statement := insertStatement entityId pairs in
    do res <- query statement insertValues;
    deserialize entityId (row_at (fst res) 0)).

Definition updateEntity (entityId id : string) (instance : nat) : M nat :=
  errorWrapper (
    do o <- read instance;
    let pairs := getColumnValuePairs o in
    let updatePairs :=
      List.filter (fun p => negb (String.eqb (column p) "id")) pairs in
    let updateValues := map value updatePairs in
    let statement := updateStatement entityId updatePairs in
    let updateValues := updateValues ++ [VString id] in
    do res <- query statement updateValues;
    deserialize entityId (row_at (fst res) 0)).

Definition upsertEntity (entityId id : string) (instance : nat) : M nat :=
  errorWrapper (
    write instance "id" (VString id) ;;
    do o <- read instance;
    let pairs := getColumnValuePairs o in
    let insertValues := map value pairs in
    let insertFragment := insertFragment_of pairs in
    let updatePairs :=
      List.filter (fun p => negb (String.eqb (column p) "id")) pairs in
    let updateValues := map value updatePairs in
    let updateFragment :=
      join ", "
        (imap (fun idx p =>
                 column p +:+ " = " +:+ placeholder (idx + length insertValues))
              updatePairs) in
    let statement :=
      "INSERT INTO " +:+ quoted entityId +:+ " " +:+ insertFragment
      +:+ " ON CONFLICT(" +:+ quoted "id" +:+ ") DO UPDATE SET "
      +:+ updateFragment +:+ " RETURNING *" in
    do res <- query statement (insertValues ++ updateValues);
    deserialize entityId (row_at (fst res) 0)).

Definition deleteEntity (entityId id : string) : M bool :=
  errorWrapper (
    let statement :=
      "DELETE FROM " +:+ quoted entityId +:+ " WHERE " +:+ quoted "id" +:+ " = $1" in
    do res <- query statement [VString id];
    ret (Nat.eqb (snd res) 1)).

(** [xs.map(f)] for a callback that may throw. *)
Fixpoint map_throwing {A B} (f : A -> Result B) (xs : list A) : Result (list B) :=
  match xs with
  | [] => Ok []
  | x :: xs' =>
      match f x with
      | Throw e => Throw e
      | Ok y =>
          match map_throwing f xs' with
          | Throw e => Throw e
          | Ok ys => Ok (y :: ys)
          end
      end
  end.

(** The callback of [getEntities] for one entry of [where]. *)
Definition whereFragment (entry : string * Value) : Result string :=
  let (field, value) := entry in
  let pieces := split_key field in
  let fieldName := default EmptyString (pieces !! 0%nat) in
  let rawFilterType := pieces !! 1%nat in
  let filterType := default EmptyString rawFilterType in
  match sqlSymbolsForFilterType !! filterType with
  | None => Throw (UnknownFilterType filterType)
  | Some sqlSymbols =>
      match getWhereValue value sqlSymbols with
      | Throw e => Throw e
      | Ok whereValue => Ok (quoted fieldName +:+ " " +:+ whereValue)
      end
  end.

(** The statement that [getEntities] builds before it queries the pool.
    [first] and [skip] are integers below 10^21 in absolute value, which
    JavaScript prints in decimal like [pretty]. *)
Definition getEntities_statement (entityId : string)
    (filter : option EntityFilter) : Result string :=
  let where_ := filter ≫= filter_where in
  let first := filter ≫= filter_first in
  let skip := filter ≫= filter_skip in
  let orderBy := filter ≫= filter_orderBy in
  let orderDirection := filter ≫= filter_orderDirection in
  let fragments : list string := [] in
  match
    match where_ with
    | Some where_ =>
        match map_throwing whereFragment where_ with
        | Throw e => Throw e
        | Ok whereFragments =>
            Ok (fragments ++ ["WHERE " +:+ join " AND " whereFragments])
        end
    | None => Ok fragments
    end
  with
  | Throw e => Throw e
  | Ok fragments =>
      let fragments :=
        if truthy_string orderBy
        then fragments ++ ["ORDER BY " +:+ quoted (default EmptyString orderBy)]
        else fragments in
      let fragments :=
        if truthy_string orderDirection
        then fragments ++ [default EmptyString orderDirection]
        else fragments in
      let fragments :=
        if truthy_number first
        then fragments ++ ["LIMIT " +:+ pretty (default 0 first)]
        else fragments in
      let fragments :=
        if truthy_number skip
        then (if negb (truthy_number first)
              then fragments ++ ["LIMIT -1"]
              else fragments) ++ ["OFFSET " +:+ pretty (default 0 skip)]
        else fragments in
      Ok ("SELECT * FROM " +:+ quoted entityId +:+ " " +:+ join " " fragments)
  end.

Definition getEntities (entityId : string) (filter : option EntityFilter)
    : M (list nat) :=
  errorWrapper (
    do statement <- lift (getEntities_statement entityId filter);
    do res <- query statement [];
    mapM (fun instance => deserialize entityId (RObj instance)) (fst res)).

Definition getEntityDerivedField (entityId instanceId derivedFieldName : string)
    : M (list nat) :=
  errorWrapper (
    do s <- get_schema;
    match find_entity (fun e => String.eqb (entity_id e) entityId) s with
    | None => throw (EntityNotFoundForId entityId)
    | Some entity =>
        match
          List.find
            (fun field =>
               FieldKind_eqb (field_kind field) DERIVED
               && String.eqb (field_name field) derivedFieldName)
            (entity_fields entity)
        with
        | None => throw (DerivedFieldNotFound (entity_name entity) derivedFieldName)
        | Some derivedField =>
            match
              find_entity
                (fun e =>
                   String.eqb (entity_name e)
                     (field_derivedFromEntityName derivedField)) s
            with
            | None =>
                throw (EntityNotFoundForName
                         (field_derivedFromEntityName derivedField))
            | Some derivedFromEntity =>
                do derivedFieldInstances <-
                  getEntities (entity_id derivedFromEntity)
                    (Some {| filter_where :=
                               Some [(field_derivedFromFieldName derivedField,
                                      VString instanceId)];
                             filter_first := None;
                             filter_skip := None;
                             filter_orderBy := None;
                             filter_orderDirection := None |});
                ret derivedFieldInstances
            end
        end
    end).

(** *** What the callbacks compute, stated on values *)

(** The value that [deserialize] stores for one property of a row. *)
Definition decoded (entity : Entity) (entry : string * Value)
    : Result (string * Value) :=
  let (fieldName, value) := entry in
  match entity_fieldByName entity !! fieldName with
  | None =>
      if inherited fieldName then Throw ToStringOfUndefined
      else Ok (fieldName, value)
  | Some field =>
      if String.eqb (field_baseGqlType field) "Boolean" then
        Ok (fieldName, VBool match value with VNumber 1 => true | _ => false end)
      else if FieldKind_eqb (field_kind field) LIST then
        match JSON_parse value with
        | Ok parsed => Ok (fieldName, parsed)
        | Throw e => Throw e
        end
      else Ok (fieldName, value)
  end.

(** Every property of the row is a field of the entity or has a name that
    [Object.prototype] does not have. *)
Definition own_names_only (entity : Entity) (row : Obj) : Prop :=
  ∀ k v, In (k, v) row → entity_fieldByName entity !! k = None → inherited k = false.

(** The predicate on [fieldName] for the operator suffix [filterType]. *)
Definition predicate_for (fieldName filterType : string) (value : Value)
    : Result string :=
  match sqlSymbolsForFilterType !! filterType with
  | None => Throw (UnknownFilterType filterType)
  | Some sqlSymbols =>
      match getWhereValue value sqlSymbols with
      | Throw e => Throw e
      | Ok whereValue => Ok (quoted fieldName +:+ " " +:+ whereValue)
      end
  end.

(** The state after the pool has answered a statement with the rows [rs]. *)
Definition after_query (statement : string) (values : list Value)
    (rs : list Obj) (db : DB) (st : State) : State :=
  {| schema := schema st; heap := heap st ++ rs; pool := db;
     issued := issued st ++ [(statement, values)] |}.

(** The clauses after the filter, in the words of the spec: the ordering,
    its direction, the limit and the offset. *)
Definition order_clause (filter : EntityFilter) : list string :=
  if truthy_string (filter_orderBy filter)
  then ["ORDER BY " +:+ quoted (default EmptyString (filter_orderBy filter))]
  else [].

Definition direction_clause (filter : EntityFilter) : list string :=
  if truthy_string (filter_orderDirection filter)
  then [default EmptyString (filter_orderDirection filter)]
  else [].

Definition limit_clause (filter : EntityFilter) : list string :=
  if truthy_number (filter_first filter)
  then ["LIMIT " +:+ pretty (default 0 (filter_first filter))]
  else if truthy_number (filter_skip filter) then ["LIMIT -1"] else [].

Definition offset_clause (filter : EntityFilter) : list string :=
  if truthy_number (filter_skip filter)
  then ["OFFSET " +:+ pretty (default 0 (filter_skip filter))]
  else [].

(** The filter [{ where: { [fieldName]: instanceId } }]. *)
Definition equality_filter (fieldName instanceId : string) : EntityFilter :=
  {| filter_where := Some [(fieldName, VString instanceId)];
     filter_first := None;
     filter_skip := None;
     filter_orderBy := None;
     filter_orderDirection := None |}.

(** The operator suffix that the compiler reads off a key. *)
Definition filterType_of (key : string) : string :=
  default EmptyString (split_key key !! 1%nat).

End Store.

(** ** The where-clause builder of the plural field *)

Definition graphqlFilterToStoreCondition : gmap string string :=
  list_to_map
    [ (EmptyString, "equals");
      ("not", "not");
      ("in", "in");
      ("not_in", "notIn");
      ("has", "has");
      ("not_has", "notHas");
      ("gt", "gt");
      ("lt", "lt");
      ("gte", "gte");
      ("lte", "lte");
      ("contains", "contains");
      ("not_contains", "notContains");
      ("starts_with", "startsWith");
      ("not_starts_with", "notStartsWith");
      ("ends_with", "endsWith");
      ("not_ends_with", "notEndsWith") ].

(** [graphqlFilterToStoreCondition[condition]]: the condition of the table,
    or else the member of [Object.prototype] of that name, as the text it has
    as the computed key of [{ [storeCondition]: rawValue }]; [None] is
    [undefined]. *)
Definition storeCondition_at (condition : string) : option string :=
  match graphqlFilterToStoreCondition !! condition with
  | Some storeCondition => Some storeCondition
  | None => obj_get condition Object_prototype
  end.

(** One step of the [forEach] of [buildWhereObject].  The where-object is
    the list of the names that have been assigned in it, each with what
    [whereObject[name]] reads afterwards: the one-property object
    [{ [storeCondition]: rawValue }], here the pair of its key and its
    value. *)
Definition buildWhereObject_step
    (whereObject : list (string * (string * Value)))
    (entry : string * Value) : Result (list (string * (string * Value))) :=
  let (whereKey, rawValue) := entry in
  let pieces := split_key whereKey in
  let fieldName := default EmptyString (pieces !! 0%nat) in
  let condition_ := pieces !! 1%nat in
  let condition := default EmptyString condition_ in
  match storeCondition_at condition with
  | None => Throw (UnknownWhereCondition fieldName condition)
  | Some storeCondition =>
      Ok (obj_set fieldName (storeCondition, rawValue) whereObject)
  end.

Fixpoint buildWhereObject_from
    (whereObject : list (string * (string * Value)))
    (entries : list (string * Value)) : Result (list (string * (string * Value))) :=
  match entries with
  | [] => Ok whereObject
  | entry :: entries' =>
      match buildWhereObject_step whereObject entry with
      | Throw e => Throw e
      | Ok whereObject' => buildWhereObject_from whereObject' entries'
      end
  end.

Definition buildWhereObject (where_ : Obj) : Result (list (string * (string * Value))) :=
  buildWhereObject_from [] where_.

(** ** A small schema and stub collaborators, for the examples *)

Module Demo.

Definition scalar (name type : string) : Field :=
  {| field_name := name; field_kind := SCALAR; field_baseGqlType := type;
     field_migrateUpStatement := quoted name +:+ " text";
     field_derivedFromEntityName := EmptyString;
     field_derivedFromFieldName := EmptyString |}.

Definition list_of (name type : string) : Field :=
  {| field_name := name; field_kind := LIST; field_baseGqlType := type;
     field_migrateUpStatement := quoted name +:+ " text";
     field_derivedFromEntityName := EmptyString;
     field_derivedFromFieldName := EmptyString |}.

Definition derived (name type fromEntity fromField : string) : Field :=
  {| field_name := name; field_kind := DERIVED; field_baseGqlType := type;
     field_migrateUpStatement := EmptyString;
     field_derivedFromEntityName := fromEntity;
     field_derivedFromFieldName := fromField |}.

Definition entity_of (id : string) (fields : list Field) : Entity :=
  {| entity_id := id; entity_name := id; entity_fields := fields;
     entity_fieldByName :=
       list_to_map (map (fun f => (field_name f, f)) fields) |}.

Definition Owner : Entity :=
  entity_of "Owner"
    [ scalar "id" "String"; scalar "name" "String";
      scalar "active" "Boolean"; list_of "tags" "String";
      derived "pets" "Pet" "Pet" "ownerId";
      derived "strays" "Stray" "Stray" "ownerId" ].

Definition Pet : Entity :=
  entity_of "Pet" [ scalar "id" "String"; scalar "ownerId" "String" ].

Definition demo_schema : Schema := {| entities := [Owner; Pet] |}.

(** An entity with a field whose name has an underscore, and an entity with
    a derived field through that field. *)
Definition Toy : Entity :=
  entity_of "Toy" [ scalar "id" "String"; scalar "owner_id" "String" ].

Definition Keeper : Entity :=
  entity_of "Keeper"
    [ scalar "id" "String"; derived "toys" "Toy" "Toy" "owner_id" ].

Definition toy_schema : Schema := {| entities := [Keeper; Toy] |}.

(** A pool that answers every statement with the same result. *)
Definition answering (answer : QueryResult)
    : string -> list Value -> unit -> Result QueryResult * unit :=
  fun _ _ db => (Ok answer, db).

(** A parser that knows the empty array only. *)
Definition parse_stub (v : Value) : Result Value :=
  match v with
  | VString s =>
      if String.eqb s "[]" then Ok (VArray [])
      else Throw (SyntaxError "Unexpected token")
  | _ => Throw (SyntaxError "Unexpected token")
  end.

(** An operator table with two operators, a symbol being its text. *)
Definition symbols_stub : gmap string string :=
  list_to_map [ (EmptyString, "="); ("gt", ">") ].

Definition env (answer : QueryResult) : Env :=
  {| DB := unit;
     pool_query := answering answer;
     JSON_parse := parse_stub;
     SqlSymbols := string;
     sqlSymbolsForFilterType := symbols_stub;
     getWhereValue := fun _ symbol => Ok symbol;
     getColumnValuePairs :=
       map (fun entry => {| column := fst entry; value := snd entry |}) |}.

Definition initial (answer : QueryResult) (s : option Schema) (h : list Obj)
    : @State (env answer) :=
  @Build_State (env answer) s h tt [].

(** A stored row of [Owner], and the pool that answers with it. *)
Definition owner_row : Obj :=
  [ ("id", VString "x"); ("name", VString "bob"); ("active", VNumber 1);
    ("tags", VString "[]"); ("note", VNumber 7) ].

Definition one_row (row : Obj) : QueryResult := {| rows := [row]; rowCount := 1 |}.

Definition no_row : QueryResult := {| rows := []; rowCount := 0 |}.

(** An instance that a caller hands to [insertEntity], with an [id] of its
    own. *)
Definition bob : Obj := [ ("id", VString "y"); ("name", VString "bob") ].

Definition bob_stored : Obj := [ ("id", VString "x"); ("name", VString "bob") ].

Definition where_only (where_ : Obj) : EntityFilter :=
  {| filter_where := Some where_; filter_first := None; filter_skip := None;
     filter_orderBy := None; filter_orderDirection := None |}.

End Demo.

(** ** Statements, answers and filters, named *)

(** The statement of [teardown] for one entity. *)
Definition dropStatement (entity : Entity) : string :=
  "DROP TABLE IF EXISTS " +:+ quoted (entity_id entity).

(** The statement of [load] for one entity: the columns are those of the
    fields that are not derived. *)
Definition createStatement (entity : Entity) : string :=
  let columnStatements :=
    map field_migrateUpStatement
      (List.filter (fun field => negb (FieldKind_eqb (field_kind field) DERIVED))
         (entity_fields entity)) in
  "CREATE TABLE " +:+ quoted (entity_id entity) +:+ " ("
  +:+ join ", " columnStatements +:+ ")".

(** The statement of [getEntity]. *)
Definition selectStatement (entityId : string) : string :=
  "SELECT " +:+ quoted entityId +:+ ".* FROM " +:+ quoted entityId
  +:+ " WHERE " +:+ quoted entityId +:+ "." +:+ quoted "id" +:+ " = $1".

(** The statement of [deleteEntity]. *)
Definition deleteStatement (entityId : string) : string :=
  "DELETE FROM " +:+ quoted entityId +:+ " WHERE " +:+ quoted "id" +:+ " = $1".

(** The pairs that [updateEntity] and [upsertEntity] set. *)
Definition updatePairs_of (pairs : list ColumnValuePair) : list ColumnValuePair :=
  List.filter (fun p => negb (String.eqb (column p) "id")) pairs.

(** The statement of [upsertEntity]: the placeholders of the update follow
    those of the insert. *)
Definition upsertStatement (entityId : string) (pairs : list ColumnValuePair)
    : string :=
  let insertValues := map value pairs in
  let updateFragment :=
    join ", "
      (imap (fun idx p =>
               column p +:+ " = " +:+ placeholder (idx + length insertValues))
            (updatePairs_of pairs)) in
  "INSERT INTO " +:+ quoted entityId +:+ " " +:+ insertFragment_of pairs
  +:+ " ON CONFLICT(" +:+ quoted "id" +:+ ") DO UPDATE SET "
  +:+ updateFragment +:+ " RETURNING *".

(** The statements of a schema, each without bound values. *)
Definition drops (s : option Schema) : list (string * list Value) :=
  match s with
  | Some sch => map (fun entity => (dropStatement entity, [])) (entities sch)
  | None => []
  end.

Definition creates (s : option Schema) : list (string * list Value) :=
  match s with
  | Some sch => map (fun entity => (createStatement entity, [])) (entities sch)
  | None => []
  end.

(** A filter with its falsy parts (a zero [first] or [skip], an empty
    [orderBy] or [orderDirection]) left out. *)
Definition without_falsy (filter : EntityFilter) : EntityFilter :=
  {| filter_where := filter_where filter;
     filter_first :=
       if truthy_number (filter_first filter) then filter_first filter else None;
     filter_skip :=
       if truthy_number (filter_skip filter) then filter_skip filter else None;
     filter_orderBy :=
       if truthy_string (filter_orderBy filter) then filter_orderBy filter else None;
     filter_orderDirection :=
       if truthy_string (filter_orderDirection filter)
       then filter_orderDirection filter else None |}.

Definition no_filter : EntityFilter :=
  {| filter_where := None; filter_first := None; filter_skip := None;
     filter_orderBy := None; filter_orderDirection := None |}.

(** The field name that the compilers read off a key. *)
Definition fieldName_of (key : string) : string :=
  default EmptyString (split_key key !! 0%nat).

Section Answers.

Context `{Env}.


(** A pool that rejects no statement. *)
Definition accepts_all : Prop :=
  ∀ statement values db,
    ∃ res db', pool_query statement values db = (Ok res, db').

(** An operation keeps a relation between the state before and the state
    after, whatever its outcome. *)
Definition keeps {A} (R : State → State → Prop) (m : M A) : Prop :=
  ∀ st, R st (snd (m st)).

Definition same_schema (st st' : State) : Prop := schema st' = schema st.

Definition same_issued (st st' : State) : Prop := issued st' = issued st.

(** No object of the heap is changed (new ones may be added). *)
Definition same_objects (st st' : State) : Prop :=
  ∀ l o, heap st !! l = Some o → heap st' !! l = Some o.

Definition same_objects_but (i : nat) (st st' : State) : Prop :=
  ∀ l o, l ≠ i → heap st !! l = Some o → heap st' !! l = Some o.

End Answers.

(** ** Entities with columns: the generated types *)

(** The scalars, as the keys of [scalarToTsType]. *)
Inductive Scalar : Type := Sstring | Sint | Sfloat | Sboolean | Sbigint | Sbytes.

Definition scalarToTsType (t : Scalar) : string :=
  match t with
  | Sstring => "string"
  | Sint => "number"
  | Sfloat => "number"
  | Sboolean => "boolean"
  | Sbigint => "bigint"
  | Sbytes => "0x{string}"
  end.

(** A column; [optional] and [list] are [true] or not. *)
Record Column : Type := {
  column_type : Scalar;
  column_optional : bool;
  column_list : bool
}.

(** An entity of the generators: [entity.columns] with its keys in
    [Object.keys] order, pairwise distinct. *)
Record TableEntity : Type := {
  table_name : string;
  table_columns : list (string * Column)
}.

Definition newline : string := String (ascii_of_nat 10) EmptyString.

(** The inner template of [buildEntityTypes], for one column. *)
Definition columnType (entry : string * Column) : string :=
  let (key, col) := entry in
  let scalar := scalarToTsType (column_type col) in
  key +:+ (if column_optional col then "?" else EmptyString) +:+ ": " +:+ scalar
  +:+ (if column_list col then "[]" else EmptyString) +:+ ";".

(** The outer template, for one entity; its lines are indented as the
    source has them. *)
Definition entityType (entity : TableEntity) : string :=
  "export type " +:+ table_name entity +:+ " = {" +:+ newline
  +:+ "        " +:+ join EmptyString (map columnType (table_columns entity))
  +:+ newline +:+ "        };".

Definition buildEntityTypes (entities : list TableEntity) : string :=
  let entityModelTypes := join EmptyString (map entityType entities) in
  entityModelTypes.

(** ** The plural field: its filter fields and the call of the store *)

Definition tsTypeToGqlField (key : string) : string :=
  if String.eqb key "bigint" then "bigInt" else key.

Definition operators_universal : list string := [EmptyString; "_not"].
Definition operators_singular : list string := ["_in"; "_not_in"].
Definition operators_plural : list string := ["_has"; "_not_has"].
Definition operators_numeric : list string := ["_gt"; "_lt"; "_gte"; "_lte"].
Definition operators_string : list string :=
  [ "_contains"; "_not_contains"; "_starts_with"; "_ends_with";
    "_not_starts_with"; "_not_ends_with" ].

Definition operators_all : list string :=
  operators_universal ++ operators_singular ++ operators_plural
  ++ operators_numeric ++ operators_string.

(** [["int", "bigint", "float"].includes(type)] and
    [["string", "bytes"].includes(type)] *)
Definition is_numeric (t : Scalar) : bool :=
  match t with
  | Sint | Sbigint | Sfloat => true
  | _ => false
  end.

Definition is_text (t : Scalar) : bool :=
  match t with
  | Sstring | Sbytes => true
  | _ => false
  end.

(** The type of a filter field: [OfScalar g] is the scalar [g] and
    [OfList g] is [new GraphQLList(g)]. *)
Inductive FilterFieldType (G : Type) : Type :=
| OfScalar (g : G)
| OfList (g : G).

Arguments OfScalar {G} g.
Arguments OfList {G} g.

(** The arguments of the resolver and of [store.findMany]. *)
Record PluralArgs : Type := {
  args_timestamp : option Z;
  args_where : option Obj;
  args_first : option Z;
  args_skip : option Z;
  args_orderBy : option string;
  args_orderDirection : option string
}.

Record FindManyArgs : Type := {
  findMany_modelName : string;
  findMany_timestamp : option Z;
  findMany_where : option (list (string * (string * Value)));
  findMany_skip : option Z;
  findMany_take : option Z;
  findMany_orderBy : option (string * string)
}.

Section PluralField.

(** [tsTypeToGqlScalar] is imported from [./schema], which is not among the
    sources, and [store.findMany] belongs to the store of the context. *)
Variable G : Type.
Variable tsTypeToGqlScalar : Scalar -> G.
Variable Found : Type.
Variable findMany : FindManyArgs -> Result Found.

(** [suffixes.forEach((suffix) => { filterFields[name(suffix)] = { type } })] *)
Definition register (name : string -> string) (type : FilterFieldType G)
    (suffixes : list string) (filterFields : list (string * FilterFieldType G))
    : list (string * FilterFieldType G) :=
  fold_left (fun filterFields suffix => obj_set (name suffix) type filterFields)
    suffixes filterFields.

(** The body of the loop over the columns. *)
Definition filterFields_column
    (filterFields : list (string * FilterFieldType G))
    (entry : string * Column) : list (string * FilterFieldType G) :=
  let (key, col) := entry in
  let scalar := tsTypeToGqlScalar (column_type col) in
  if negb (column_list col) then
    let filterFields :=
      register (fun suffix => tsTypeToGqlField key +:+ suffix) (OfScalar scalar)
        operators_universal filterFields in
    let filterFields :=
      register (fun suffix => tsTypeToGqlField key +:+ suffix) (OfList scalar)
        operators_singular filterFields in
    let filterFields :=
      if is_numeric (column_type col) then
        register (fun suffix => tsTypeToGqlField key +:+ suffix) (OfScalar scalar)
          operators_numeric filterFields
      else filterFields in
    if is_text (column_type col) then
      register (fun suffix => key +:+ suffix) (OfScalar scalar)
        operators_string filterFields
    else filterFields
  else
    let filterFields :=
      register (fun suffix => tsTypeToGqlField key +:+ suffix) (OfList scalar)
        operators_universal filterFields in
    register (fun suffix => tsTypeToGqlField key +:+ suffix) (OfScalar scalar)
      operators_plural filterFields.

(** [filterFields] of [buildPluralField]. *)
Definition filterFields_of (entity : TableEntity)
    : list (string * FilterFieldType G) :=
  fold_left filterFields_column (table_columns entity) [].

(** The resolver of the plural field. *)
Definition resolver (entity : TableEntity) (args : PluralArgs) : Result Found :=
  match
    match args_where args with
    | Some where_ =>
        match buildWhereObject where_ with
        | Throw e => Throw e
        | Ok whereObject => Ok (Some whereObject)
        end
    | None => Ok None
    end
  with
  | Throw e => Throw e
  | Ok where_ =>
      findMany
        {| findMany_modelName := table_name entity;
           findMany_timestamp :=
             if truthy_number (args_timestamp args) then args_timestamp args
             else None;
           findMany_where := where_;
           findMany_skip := args_skip args;
           findMany_take := args_first args;
           findMany_orderBy :=
             if truthy_string (args_orderBy args) then
               Some (default EmptyString (args_orderBy args),
                     if truthy_string (args_orderDirection args)
                     then default EmptyString (args_orderDirection args)
                     else "asc")
             else None |}
  end.

End PluralField.

(** ** More stubs and data, for the examples *)

Module Fixtures.

(** A pool that rejects every statement. *)
Definition refusing : Env :=
  {| DB := unit;
     pool_query := fun _ _ db => (Throw (DatabaseError "connection refused"), db);
     JSON_parse := Demo.parse_stub;
     SqlSymbols := string;
     sqlSymbolsForFilterType := Demo.symbols_stub;
     getWhereValue := fun _ symbol => Ok symbol;
     getColumnValuePairs :=
       map (fun entry => {| column := fst entry; value := snd entry |}) |}.

Definition refusing_store (s : option Schema) : @State refusing :=
  @Build_State refusing s [] tt [].

Definition pets_only : Schema := {| entities := [Demo.Pet] |}.


Definition plain_column (t : Scalar) : Column :=
  {| column_type := t; column_optional := false; column_list := false |}.

Definition owner_table : TableEntity :=
  {| table_name := "Owner";
     table_columns :=
       [ ("name", plain_column Sstring); ("age", plain_column Sint);
         ("tags", {| column_type := Sstring; column_optional := true;
                     column_list := true |}) ] |}.

Definition pet_table : TableEntity :=
  {| table_name := "Pet";
     table_columns := [ ("owner_id", plain_column Sstring) ] |}.

Definition adults_named : Obj :=
  [ ("age_gt", VNumber 17); ("name_contains", VString "bo") ].

Definition plural_args (where_ : Obj) : PluralArgs :=
  {| args_timestamp := None; args_where := Some where_; args_first := Some 100;
     args_skip := Some 0; args_orderBy := Some "id";
     args_orderDirection := None |}.

End Fixtures.

(** * Properties *)

(** ** Objects *)

Lemma obj_get_set_eq {V} (k : string) (v : V) (o : list (string * V)) :
  obj_get k (obj_set k v o) = Some v.
Proof.
  induction o as [|[k' v'] o IH]; simpl.
  - now rewrite String.eqb_refl.
  - destruct (String.eqb k' k) eqn:E; simpl.
    + now rewrite String.eqb_refl.
    + now rewrite E.
Qed.

Lemma obj_get_set_ne {V} (k k0 : string) (v : V) (o : list (string * V)) :
  k ≠ k0 → obj_get k0 (obj_set k v o) = obj_get k0 o.
Proof.
  intros Hne. induction o as [|[k' v'] o IH]; simpl.
  - destruct (String.eqb_spec k k0); [contradiction | reflexivity].
  - destruct (String.eqb_spec k' k) as [->|Hk]; simpl.
    + destruct (String.eqb_spec k k0); [contradiction | reflexivity].
    + destruct (String.eqb_spec k' k0); [reflexivity | exact IH].
Qed.

Lemma obj_set_middle {V} (k : string) (v v' : V) (pre post : list (string * V)) :
  k ∉ map fst pre →
  obj_set k v' (pre ++ (k, v) :: post) = pre ++ (k, v') :: post.
Proof.
  induction pre as [|[k0 v0] pre IH]; simpl; intros Hk.
  - now rewrite String.eqb_refl.
  - destruct (String.eqb_spec k0 k) as [->|Hne].
    + exfalso. apply Hk. left.
    + f_equal. apply IH. intros Hin. apply Hk. now right.
Qed.

Lemma keys_middle (k : string) (v v' : Value) (pre post : Obj) :
  keys (pre ++ (k, v') :: post) = keys (pre ++ (k, v) :: post).
Proof. unfold keys. now rewrite !map_app. Qed.

Lemma NoDup_keys_middle (k : string) (v : Value) (pre post : Obj) :
  NoDup (keys (pre ++ (k, v) :: post)) → k ∉ keys pre.
Proof.
  unfold keys. rewrite map_app. simpl. intros Hnd.
  apply NoDup_app in Hnd as (_ & Hdisj & _).
  intros Hin. apply (Hdisj _ Hin). left.
Qed.

Section Properties.

Context `{Env}.

(** ** The state *)

Lemma set_heap_id (st : State) : set_heap (heap st) st = st.
Proof. now destruct st. Qed.

Lemma set_heap_twice (h h' : list Obj) (st : State) :
  set_heap h (set_heap h' st) = set_heap h st.
Proof. reflexivity. Qed.

Lemma bind_ok {A B} (m : M A) (k : A → M B) (st st' : State) (a : A) :
  m st = (Ok a, st') → bind m k st = k a st'.
Proof. unfold bind. now intros ->. Qed.

Lemma bind_throw {A B} (m : M A) (k : A → M B) (st st' : State) (e : Exn) :
  m st = (Throw e, st') → bind m k st = (Throw e, st').
Proof. unfold bind. now intros ->. Qed.

Lemma bind_ret_r {A} (m : M A) (st : State) :
  (do x <- m; ret x) st = m st.
Proof. unfold bind, ret. now destruct (m st) as [[a|e] st']. Qed.

(** ** Decoding a row *)

Lemma decoded_key (entity : Entity) (k : string) (v : Value) (kv : string * Value) :
  decoded entity (k, v) = Ok kv → fst kv = k.
Proof.
  unfold decoded. intros Hd.
  destruct (entity_fieldByName entity !! k) as [f|];
    [|destruct (inherited k); [discriminate | now inversion Hd]].
  destruct (String.eqb (field_baseGqlType f) "Boolean"); [now inversion Hd|].
  destruct (FieldKind_eqb (field_kind f) LIST); [|now inversion Hd].
  destruct (JSON_parse v); now inversion Hd.
Qed.

(** One property: the copy at [d] is updated at that property and nowhere
    else. *)
Lemma deserialize_property_step (entity : Entity) (d : nat) (k : string)
    (v : Value) (pre post : Obj) (st : State) :
  heap st !! d = Some (pre ++ (k, v) :: post) →
  k ∉ keys pre →
  match decoded entity (k, v) with
  | Throw e => deserialize_property entity d (k, v) st = (Throw e, st)
  | Ok kv' =>
      deserialize_property entity d (k, v) st
      = (Ok tt, set_heap (<[d := pre ++ kv' :: post]> (heap st)) st)
  end.
Proof.
  intros Hd Hk.
  assert (Hw : ∀ v', write d k v' st
                     = (Ok tt, set_heap (<[d := pre ++ (k, v') :: post]> (heap st)) st)).
  { intros v'. unfold write. rewrite Hd. now rewrite obj_set_middle. }
  unfold decoded, deserialize_property.
  destruct (entity_fieldByName entity !! k) as [f|].
  - destruct (String.eqb (field_baseGqlType f) "Boolean"); [apply Hw|].
    destruct (FieldKind_eqb (field_kind f) LIST); [|apply Hw].
    unfold bind, lift. destruct (JSON_parse v); [apply Hw | reflexivity].
  - destruct (inherited k); [reflexivity|].
    unfold ret. now rewrite (list_insert_id _ _ _ Hd), set_heap_id.
Qed.

Lemma forEach_deserialize_property (entity : Entity) (d : nat) :
  ∀ (rest pre : Obj) (st : State),
    heap st !! d = Some (pre ++ rest) →
    NoDup (keys (pre ++ rest)) →
    match map_throwing (decoded entity) rest with
    | Ok rest' =>
        forEach rest (deserialize_property entity d) st
        = (Ok tt, set_heap (<[d := pre ++ rest']> (heap st)) st)
    | Throw e =>
        ∃ o', forEach rest (deserialize_property entity d) st
              = (Throw e, set_heap (<[d := o']> (heap st)) st)
    end.
Proof.
  induction rest as [|[k v] rest IH]; intros pre st Hd Hnd;
    cbn [forEach map_throwing].
  - unfold ret. rewrite app_nil_r in *.
    now rewrite (list_insert_id _ _ _ Hd), set_heap_id.
  - pose proof (NoDup_keys_middle _ _ _ _ Hnd) as Hk.
    pose proof (deserialize_property_step entity d k v pre rest st Hd Hk) as Hstep.
    pose proof (lookup_lt_Some _ _ _ Hd) as Hlt.
    destruct (decoded entity (k, v)) as [[k' v']|e] eqn:Hdec.
    + apply decoded_key in Hdec as Hk'. simpl in Hk'. subst k'.
      rewrite (bind_ok _ _ _ _ _ Hstep).
      specialize (IH (pre ++ [(k, v')])
                    (set_heap (<[d := pre ++ (k, v') :: rest]> (heap st)) st)).
      simpl in IH. rewrite <- !app_assoc in IH. simpl in IH.
      rewrite list_lookup_insert_eq in IH by exact Hlt.
      specialize (IH eq_refl).
      rewrite (keys_middle k v v') in IH. specialize (IH Hnd).
      destruct (map_throwing (decoded entity) rest) as [rest'|e].
      * rewrite IH. rewrite <- app_assoc. simpl.
        now rewrite list_insert_insert_eq.
      * destruct IH as [o' IH]. exists o'. rewrite IH.
        now rewrite list_insert_insert_eq.
    + rewrite (bind_throw _ _ _ _ _ Hstep). exists (pre ++ (k, v) :: rest).
      now rewrite (list_insert_id _ _ _ Hd), set_heap_id.
Qed.

Lemma map_throwing_decoded_keys (entity : Entity) :
  ∀ (row row' : Obj),
    map_throwing (decoded entity) row = Ok row' → keys row' = keys row.
Proof.
  induction row as [|[k v] row IH]; intros row' Hm;
    cbn [map_throwing] in Hm.
  - now inversion Hm.
  - destruct (decoded entity (k, v)) as [kv'|e] eqn:Hdec; [|discriminate].
    destruct (map_throwing (decoded entity) row) as [rest'|e]; [|discriminate].
    inversion Hm; subst row'. simpl.
    now rewrite (decoded_key _ _ _ _ Hdec), (IH rest' eq_refl).
Qed.

Lemma map_throwing_decoded_get (entity : Entity) :
  ∀ (row row' : Obj) (k : string) (v : Value),
    map_throwing (decoded entity) row = Ok row' →
    obj_get k row = Some v →
    ∃ v', obj_get k row' = Some v' ∧ decoded entity (k, v) = Ok (k, v').
Proof.
  induction row as [|[k0 v0] row IH]; intros row' k v Hm Hget;
    cbn [map_throwing obj_get] in *.
  - discriminate.
  - destruct (decoded entity (k0, v0)) as [[k1 v1]|e] eqn:Hdec; [|discriminate].
    destruct (map_throwing (decoded entity) row) as [rest'|e]; [|discriminate].
    inversion Hm; subst row'.
    apply decoded_key in Hdec as Hk1. simpl in Hk1. subst k1. simpl.
    destruct (String.eqb_spec k0 k) as [->|Hne].
    + inversion Hget; subst v0. now exists v1.
    + now apply (IH rest').
Qed.

(** [deserialize] of a row of the heap: the result is a new object that
    holds the decoded entries, and nothing else changes. *)
Lemma deserialize_row (st : State) (sch : Schema) (entity : Entity)
    (entityId : string) (l : nat) (row : Obj) :
  schema st = Some sch →
  List.find (fun e => String.eqb (entity_id e) entityId) (entities sch)
  = Some entity →
  heap st !! l = Some row →
  NoDup (keys row) →
  match map_throwing (decoded entity) row with
  | Ok row' =>
      deserialize entityId (RObj l) st
      = (Ok (length (heap st)), set_heap (heap st ++ [row']) st)
  | Throw e =>
      ∃ o', deserialize entityId (RObj l) st
            = (Throw e, set_heap (heap st ++ [o']) st)
  end.
Proof.
  intros Hs Hfind Hl Hnd.
  set (st1 := set_heap (heap st ++ [row]) st).
  assert (Hspread : spread (RObj l) st = (Ok (length (heap st)), st1)).
  { unfold spread, bind, read, alloc. now rewrite Hl. }
  assert (Hentries : Object_entries (RObj l) st1 = (Ok row, st1)).
  { unfold Object_entries, read. simpl.
    now rewrite (lookup_app_l_Some _ _ _ _ Hl). }
  assert (Hd : heap st1 !! length (heap st) = Some ([] ++ row)).
  { simpl. now rewrite list_lookup_middle. }
  pose proof (forEach_deserialize_property entity (length (heap st))
                row [] st1 Hd Hnd) as Hloop.
  assert (Hins : ∀ o, set_heap (<[length (heap st) := o]> (heap st1)) st1
                      = set_heap (heap st ++ [o]) st).
  { intros o. unfold st1. simpl. rewrite set_heap_twice. f_equal.
    rewrite insert_app_r_alt by lia. now rewrite Nat.sub_diag. }
  assert (Hhead :
            deserialize entityId (RObj l) st
            = (do deserializedInstance <- spread (RObj l);
               do entries <- Object_entries (RObj l);
               forEach entries
                 (deserialize_property entity deserializedInstance) ;;
               ret deserializedInstance) st).
  { unfold deserialize.
    rewrite (bind_ok get_schema _ st st (schema st) eq_refl).
    rewrite Hs. unfold find_entity. now rewrite Hfind. }
  rewrite Hhead.
  rewrite (bind_ok _ _ _ _ _ Hspread), (bind_ok _ _ _ _ _ Hentries).
  destruct (map_throwing (decoded entity) row) as [row'|e].
  - rewrite (bind_ok _ _ _ _ _ Hloop). unfold ret. now rewrite Hins.
  - destruct Hloop as [o' Hloop]. exists o'.
    rewrite (bind_throw _ _ _ _ _ Hloop). now rewrite Hins.
Qed.

(** ** What [deserialize] leaves alone *)

Lemma unchanged_as_insert (d : nat) (st : State) :
  ∃ o, st = set_heap (<[d := o]> (heap st)) st.
Proof.
  destruct (heap st !! d) as [o|] eqn:Hd.
  - exists o. now rewrite (list_insert_id _ _ _ Hd), set_heap_id.
  - exists []. apply lookup_ge_None in Hd.
    now rewrite (list_insert_ge _ _ _ Hd), set_heap_id.
Qed.

Lemma write_frame (d : nat) (k : string) (v : Value) (st : State) :
  ∃ o, snd (write d k v st) = set_heap (<[d := o]> (heap st)) st.
Proof.
  unfold write. destruct (heap st !! d) as [o|] eqn:Hd; simpl.
  - now eexists.
  - apply unchanged_as_insert.
Qed.

Lemma deserialize_property_frame (entity : Entity) (d : nat)
    (entry : string * Value) (st : State) :
  ∃ o, snd (deserialize_property entity d entry st)
       = set_heap (<[d := o]> (heap st)) st.
Proof.
  destruct entry as [k v]. unfold deserialize_property.
  destruct (entity_fieldByName entity !! k) as [f|].
  - destruct (String.eqb (field_baseGqlType f) "Boolean"); [apply write_frame|].
    destruct (FieldKind_eqb (field_kind f) LIST); [|apply write_frame].
    unfold bind, lift. destruct (JSON_parse v); [apply write_frame|].
    apply unchanged_as_insert.
  - destruct (inherited k); apply unchanged_as_insert.
Qed.

Lemma forEach_deserialize_property_frame (entity : Entity) (d : nat) :
  ∀ (entries : Obj) (st : State),
    ∃ o, snd (forEach entries (deserialize_property entity d) st)
         = set_heap (<[d := o]> (heap st)) st.
Proof.
  induction entries as [|entry entries IH]; intros st; cbn [forEach].
  - apply unchanged_as_insert.
  - destruct (deserialize_property_frame entity d entry st) as [o1 H1].
    unfold bind.
    destruct (deserialize_property entity d entry st) as [[[]|e] st1];
      simpl in H1; subst st1.
    + destruct (IH (set_heap (<[d := o1]> (heap st)) st)) as [o2 H2].
      exists o2. rewrite H2. simpl. now rewrite list_insert_insert_eq.
    + now exists o1.
Qed.

(** Either nothing changes or one object is added to the heap. *)
Lemma deserialize_frame (entityId : string) (instance : Ref) (st : State) :
  snd (deserialize entityId instance st) = st
  ∨ ∃ o, snd (deserialize entityId instance st) = set_heap (heap st ++ [o]) st.
Proof.
  unfold deserialize.
  rewrite (bind_ok get_schema _ st st (schema st) eq_refl).
  destruct (schema st) as [sch|]; [|now left].
  destruct (find_entity _ _) as [entity|]; [|now left].
  right.
  assert (Hspread : ∃ o0, spread instance st
                          = (Ok (length (heap st)), set_heap (heap st ++ [o0]) st)).
  { destruct instance as [|l]; simpl; now eexists. }
  destruct Hspread as [o0 Hspread].
  rewrite (bind_ok _ _ _ _ _ Hspread).
  set (st1 := set_heap (heap st ++ [o0]) st).
  assert (Hins : ∀ o, set_heap (<[length (heap st) := o]> (heap st1)) st1
                      = set_heap (heap st ++ [o]) st).
  { intros o. unfold st1. simpl. rewrite set_heap_twice. f_equal.
    rewrite insert_app_r_alt by lia. now rewrite Nat.sub_diag. }
  destruct instance as [|l].
  - exists o0. reflexivity.
  - unfold Object_entries.
    rewrite (bind_ok (read l) _ st1 st1 _ eq_refl).
    destruct (forEach_deserialize_property_frame entity (length (heap st))
                (default [] (heap st1 !! l)) st1) as [o Ho].
    exists o. rewrite <- Hins, <- Ho. unfold bind.
    now destruct (forEach _ _ st1) as [[[]|e] st2].
Qed.

Lemma deserialize_keeps (entityId : string) (instance : Ref) (st : State) :
  let st' := snd (deserialize entityId instance st) in
  schema st' = schema st ∧ pool st' = pool st ∧ issued st' = issued st
  ∧ ∀ l o, heap st !! l = Some o → heap st' !! l = Some o.
Proof.
  simpl. destruct (deserialize_frame entityId instance st) as [->|[o0 ->]].
  - now repeat split.
  - simpl. repeat split; try reflexivity.
    intros l o Hl. now apply lookup_app_l_Some.
Qed.

Lemma map_throwing_decoded_total (entity : Entity) :
  ∀ row : Obj,
    (∀ k v field,
        In (k, v) row →
        entity_fieldByName entity !! k = Some field →
        String.eqb (field_baseGqlType field) "Boolean" = false →
        FieldKind_eqb (field_kind field) LIST = true →
        ∃ parsed, JSON_parse v = Ok parsed) →
    own_names_only entity row →
    ∃ row', map_throwing (decoded entity) row = Ok row'.
Proof.
  induction row as [|[k v] row IH]; intros Hparse Hown; cbn [map_throwing].
  - now eexists.
  - destruct IH as [row' ->].
    { intros k0 v0 f Hin. apply Hparse. now right. }
    { intros k0 v0 Hin. apply (Hown k0 v0). now right. }
    assert (Hd : ∃ kv', decoded entity (k, v) = Ok kv').
    { unfold decoded.
      destruct (entity_fieldByName entity !! k) as [f|] eqn:Hf;
        [|rewrite (Hown k v (or_introl eq_refl) Hf); now eexists].
      destruct (String.eqb (field_baseGqlType f) "Boolean") eqn:Hb; [now eexists|].
      destruct (FieldKind_eqb (field_kind f) LIST) eqn:Hl; [|now eexists].
      destruct (Hparse k v f (or_introl eq_refl) Hf Hb Hl) as [parsed ->].
      now eexists. }
    destruct Hd as [kv' ->]. now eexists.
Qed.

(** X22: [deserialize] never writes to an object that exists when it is
    called, its input included.  For a row of the heap whose entity is in
    the schema, a result is a new object with the properties of the row in
    the same order: the value of a property that matches no field of the
    entity is the row's (and its name is none that [Object.prototype] has), a
    boolean-typed field holds the decoded boolean, a list-kind field the
    parsed list, and every other matched field the row's value.  Such a
    result exists as soon as the values of the list-kind fields parse and the
    properties that match no field have names that [Object.prototype] does
    not have. *)
Theorem deserialize_shallow_copy (st : State) (entityId : string)
    (instance : Ref) :
  let result := deserialize entityId instance st in
  (∀ l o, heap st !! l = Some o → heap (snd result) !! l = Some o)
  ∧ ∀ sch entity l row,
      schema st = Some sch →
      List.find (fun e => String.eqb (entity_id e) entityId) (entities sch)
      = Some entity →
      instance = RObj l →
      heap st !! l = Some row →
      NoDup (keys row) →
      (∀ d, fst result = Ok d →
         d = length (heap st)
         ∧ ∃ row',
             heap (snd result) !! d = Some row'
             ∧ keys row' = keys row
             ∧ ∀ k v,
                 obj_get k row = Some v →
                 match entity_fieldByName entity !! k with
                 | None => inherited k = false ∧ obj_get k row' = Some v
                 | Some field =>
                     if String.eqb (field_baseGqlType field) "Boolean" then
                       obj_get k row'
                       = Some (VBool match v with VNumber 1 => true | _ => false end)
                     else if FieldKind_eqb (field_kind field) LIST then
                       ∃ parsed, JSON_parse v = Ok parsed
                                 ∧ obj_get k row' = Some parsed
                     else obj_get k row' = Some v
                 end)
      ∧ ((∀ k v field,
             In (k, v) row →
             entity_fieldByName entity !! k = Some field →
             String.eqb (field_baseGqlType field) "Boolean" = false →
             FieldKind_eqb (field_kind field) LIST = true →
             ∃ parsed, JSON_parse v = Ok parsed) →
         own_names_only entity row →
         ∃ d, fst result = Ok d).
Proof.
  cbv zeta. split.
  - apply deserialize_keeps.
  - intros sch entity l row Hs Hfind -> Hl Hnd.
    pose proof (deserialize_row st sch entity entityId l row Hs Hfind Hl Hnd)
      as Hrow.
    split.
    + intros d Hd.
      destruct (map_throwing (decoded entity) row) as [row'|e] eqn:Hm.
      * rewrite Hrow in Hd |- *. simpl in Hd. inversion Hd; subst d.
        split; [reflexivity|]. exists row'. simpl.
        split; [now rewrite list_lookup_middle|].
        split; [now apply (map_throwing_decoded_keys entity)|].
        intros k v Hget.
        destruct (map_throwing_decoded_get entity row row' k v Hm Hget)
          as (v' & Hget' & Hdec).
        unfold decoded in Hdec.
        destruct (entity_fieldByName entity !! k) as [f|].
        -- destruct (String.eqb (field_baseGqlType f) "Boolean").
           ++ inversion Hdec; subst v'. exact Hget'.
           ++ destruct (FieldKind_eqb (field_kind f) LIST).
              ** destruct (JSON_parse v) as [parsed|]; [|discriminate].
                 inversion Hdec; subst v'. now exists parsed.
              ** inversion Hdec; subst v'. exact Hget'.
        -- destruct (inherited k); [discriminate|].
           inversion Hdec; subst v'. now split.
      * destruct Hrow as [o' Hrow]. rewrite Hrow in Hd. discriminate.
    + intros Hparse Hown.
      destruct (map_throwing_decoded_total entity row Hparse Hown) as [row' Hm].
      rewrite Hm in Hrow. rewrite Hrow. now eexists.
Qed.

Lemma map_throwing_throws {A B} (f : A → Result B) (x : A) (e : Exn) :
  f x = Throw e →
  ∀ pre post,
    (∃ e', map_throwing f (pre ++ x :: post) = Throw e')
    ∧ (∀ ys, map_throwing f pre = Ok ys →
             map_throwing f (pre ++ x :: post) = Throw e).
Proof.
  intros Hx. induction pre as [|p pre IH]; intros post; cbn [app map_throwing].
  - rewrite Hx. split; [now eexists | reflexivity].
  - destruct (f p) as [y|e0]; [|split; [now eexists | discriminate]].
    destruct (IH post) as [[e' He'] Hok]. rewrite He'.
    split; [now eexists|].
    intros ys Hys.
    destruct (map_throwing f pre) as [ys'|]; [|discriminate].
    specialize (Hok ys' eq_refl). congruence.
Qed.

Lemma decoded_inherited (entity : Entity) (k : string) (v : Value) :
  entity_fieldByName entity !! k = None →
  inherited k = true →
  decoded entity (k, v) = Throw ToStringOfUndefined.
Proof. intros Hnone Hin. unfold decoded. now rewrite Hnone, Hin. Qed.

(** C10: a row with a property that matches no field of the entity and has
    the name of a member of [Object.prototype] is not copied: [deserialize]
    fails, and when the properties before that one decode, the failure is the
    type error of reading [toString] of [undefined].  No object that exists
    when [deserialize] is called is changed. *)
Theorem deserialize_throws_on_inherited_name (st : State) (sch : Schema)
    (entity : Entity) (entityId : string) (l : nat) (pre post : Obj)
    (k : string) (v : Value) :
  schema st = Some sch →
  List.find (fun e => String.eqb (entity_id e) entityId) (entities sch)
  = Some entity →
  heap st !! l = Some (pre ++ (k, v) :: post) →
  NoDup (keys (pre ++ (k, v) :: post)) →
  entity_fieldByName entity !! k = None →
  inherited k = true →
  let result := deserialize entityId (RObj l) st in
  (∃ e, fst result = Throw e)
  ∧ ((∃ pre', map_throwing (decoded entity) pre = Ok pre') →
     fst result = Throw ToStringOfUndefined)
  ∧ ∀ l' o, heap st !! l' = Some o → heap (snd result) !! l' = Some o.
Proof.
  intros Hs Hfind Hl Hnd Hnone Hin. cbv zeta.
  pose proof (deserialize_row st sch entity entityId l _ Hs Hfind Hl Hnd) as Hrow.
  destruct (map_throwing_throws (decoded entity) (k, v) _
              (decoded_inherited entity k v Hnone Hin) pre post)
    as [[e He] Hfirst].
  split; [|split].
  - exists e. rewrite He in Hrow. destruct Hrow as [o' ->]. reflexivity.
  - intros [pre' Hpre]. rewrite (Hfirst pre' Hpre) in Hrow.
    destruct Hrow as [o' ->]. reflexivity.
  - apply deserialize_keeps.
Qed.

(** C7 (amended): for a boolean-typed field, [deserialize] stores the
    boolean that tells whether the storage value is the number 1: the
    number 1 becomes [true], and every other storage value (the number 0 and
    the native [false], but also the native [true]) becomes [false].  The
    call returns as soon as the row decodes: the values of its list-kind
    fields parse, and its properties that match no field have names that
    [Object.prototype] does not have. *)
Theorem deserialize_boolean (st : State) (sch : Schema) (entity : Entity)
    (entityId : string) (l : nat) (row : Obj) (k : string) (v : Value)
    (field : Field) :
  schema st = Some sch →
  List.find (fun e => String.eqb (entity_id e) entityId) (entities sch)
  = Some entity →
  heap st !! l = Some row →
  NoDup (keys row) →
  (∀ k v field,
      In (k, v) row →
      entity_fieldByName entity !! k = Some field →
      String.eqb (field_baseGqlType field) "Boolean" = false →
      FieldKind_eqb (field_kind field) LIST = true →
      ∃ parsed, JSON_parse v = Ok parsed) →
  own_names_only entity row →
  entity_fieldByName entity !! k = Some field →
  field_baseGqlType field = "Boolean" →
  obj_get k row = Some v →
  ∃ d st' row' b,
    deserialize entityId (RObj l) st = (Ok d, st')
    ∧ heap st' !! d = Some row'
    ∧ obj_get k row' = Some (VBool b)
    ∧ (b = true ↔ v = VNumber 1).
Proof.
  intros Hs Hfind Hl Hnd Hparse Hown Hf Hb Hget.
  pose proof (deserialize_row st sch entity entityId l row Hs Hfind Hl Hnd)
    as Hrow.
  destruct (map_throwing_decoded_total entity row Hparse Hown) as [row' Hm].
  rewrite Hm in Hrow.
  destruct (map_throwing_decoded_get entity row row' k v Hm Hget)
    as (v' & Hget' & Hdec).
  unfold decoded in Hdec. rewrite Hf, Hb in Hdec. simpl in Hdec.
  inversion Hdec; subst v'.
  eexists _, _, row', _. split; [exact Hrow|].
  split; [simpl; now rewrite list_lookup_middle|].
  split; [exact Hget'|].
  destruct v as [| |b|n|s|items]; try (split; intros; discriminate).
  destruct n as [|p|p]; try (split; intros; discriminate).
  destruct p; split; intros; try discriminate; reflexivity.
Qed.

(** ** Operations on a store without a schema *)

Lemma errorWrapper_uninitialized {A} (fn : M A) (st : State) :
  schema st = None → errorWrapper fn st = (Throw Uninitialized, st).
Proof.
  intros Hs. unfold errorWrapper.
  rewrite (bind_ok get_schema _ st st (schema st) eq_refl). now rewrite Hs.
Qed.

Lemma errorWrapper_initialized {A} (fn : M A) (st : State) (sch : Schema) :
  schema st = Some sch → errorWrapper fn st = fn st.
Proof.
  intros Hs. unfold errorWrapper.
  rewrite (bind_ok get_schema _ st st (schema st) eq_refl). now rewrite Hs.
Qed.

(** C3: on a store that has no schema, every operation other than [load]
    and [teardown] fails with the error that says the store has not been
    initialized with a schema, and changes nothing; [teardown], and [load]
    without a schema, return without sending a statement and leave the
    store as it is. *)
Theorem uninitialized_store (st : State) :
  schema st = None →
  (∀ entityId id, getEntity entityId id st = (Throw Uninitialized, st))
  ∧ (∀ entityId id instance,
        insertEntity entityId id instance st = (Throw Uninitialized, st))
  ∧ (∀ entityId id instance,
        updateEntity entityId id instance st = (Throw Uninitialized, st))
  ∧ (∀ entityId id instance,
        upsertEntity entityId id instance st = (Throw Uninitialized, st))
  ∧ (∀ entityId id, deleteEntity entityId id st = (Throw Uninitialized, st))
  ∧ (∀ entityId filter, getEntities entityId filter st = (Throw Uninitialized, st))
  ∧ (∀ entityId instanceId derivedFieldName,
        getEntityDerivedField entityId instanceId derivedFieldName st
        = (Throw Uninitialized, st))
  ∧ teardown st = (Ok tt, st)
  ∧ load None st = (Ok tt, st).
Proof.
  intros Hs.
  repeat split; intros; try (now apply errorWrapper_uninitialized).
  - unfold teardown.
    rewrite (bind_ok get_schema _ st st (schema st) eq_refl). now rewrite Hs.
  - unfold load.
    rewrite (bind_ok get_schema _ st st (schema st) eq_refl). rewrite Hs.
    rewrite (bind_ok (ret tt) _ st st tt eq_refl).
    rewrite (bind_ok (ret tt) _ st st tt eq_refl).
    rewrite (bind_ok get_schema _ st st (schema st) eq_refl). now rewrite Hs.
Qed.

(** ** Derived fields *)

Lemma find_none_all {A} (f : A → bool) (xs : list A) :
  (∀ x, In x xs → f x = false) → List.find f xs = None.
Proof.
  induction xs as [|x xs IH]; intros Hall; simpl; [reflexivity|].
  rewrite (Hall x (or_introl eq_refl)). apply IH.
  intros y Hy. apply Hall. now right.
Qed.

(** C9: on a store with a schema, for an entity of the schema:
    when no field of the entity is of derived kind and has the given name,
    [getEntityDerivedField] fails with the error for a derived field that is
    not found; when the derived field names an entity that the schema does
    not have, it fails with the error for an entity that is not found; and
    otherwise it is [getEntities] on the target entity with the filter whose
    [where] has the single entry of the field [derivedFromFieldName] and the
    instance id. *)
Theorem derived_field_resolution (st : State) (sch : Schema) (entity : Entity)
    (entityId instanceId derivedFieldName : string) :
  schema st = Some sch →
  List.find (fun e => String.eqb (entity_id e) entityId) (entities sch)
  = Some entity →
  ((∀ field, In field (entity_fields entity) →
             ¬ (field_kind field = DERIVED ∧ field_name field = derivedFieldName)) →
   getEntityDerivedField entityId instanceId derivedFieldName st
   = (Throw (DerivedFieldNotFound (entity_name entity) derivedFieldName), st))
  ∧ ∀ derivedField,
      List.find
        (fun field =>
           FieldKind_eqb (field_kind field) DERIVED
           && String.eqb (field_name field) derivedFieldName)
        (entity_fields entity)
      = Some derivedField →
      field_kind derivedField = DERIVED
      ∧ field_name derivedField = derivedFieldName
      ∧ match
          List.find
            (fun e => String.eqb (entity_name e)
                        (field_derivedFromEntityName derivedField))
            (entities sch)
        with
        | None =>
            getEntityDerivedField entityId instanceId derivedFieldName st
            = (Throw (EntityNotFoundForName
                        (field_derivedFromEntityName derivedField)), st)
        | Some derivedFromEntity =>
            getEntityDerivedField entityId instanceId derivedFieldName st
            = getEntities (entity_id derivedFromEntity)
                (Some (equality_filter
                         (field_derivedFromFieldName derivedField) instanceId))
                st
        end.
Proof.
  intros Hs Hfind.
  split.
  - intros Hnone. unfold getEntityDerivedField.
    rewrite (errorWrapper_initialized _ st sch Hs).
    rewrite (bind_ok get_schema _ st st (schema st) eq_refl).
    rewrite Hs. unfold find_entity. rewrite Hfind.
    rewrite find_none_all; [reflexivity|].
    intros f Hin. apply andb_false_iff.
    destruct (field_kind f) eqn:Hk; simpl; try (now left).
    right. apply String.eqb_neq. intros Hn. now apply (Hnone f Hin).
  - intros derivedField Hdf.
    apply find_some in Hdf as Hprops. destruct Hprops as [_ Hprops].
    apply andb_true_iff in Hprops as [Hk Hn].
    apply String.eqb_eq in Hn.
    split; [now destruct (field_kind derivedField)|].
    split; [exact Hn|].
    unfold getEntityDerivedField.
    rewrite (errorWrapper_initialized _ st sch Hs).
    rewrite (bind_ok get_schema _ st st (schema st) eq_refl).
    rewrite Hs. unfold find_entity. rewrite Hfind, Hdf.
    destruct (List.find
                (fun e => String.eqb (entity_name e)
                            (field_derivedFromEntityName derivedField))
                (entities sch)) as [target|].
    + apply bind_ret_r.
    + reflexivity.
Qed.

(** ** Queries *)

Lemma alloc_rows_spec :
  ∀ (rs : list Obj) (st : State),
    alloc_rows rs st
    = (Ok (seq (length (heap st)) (length rs)), set_heap (heap st ++ rs) st).
Proof.
  induction rs as [|r rs IH]; intros st; cbn [alloc_rows].
  - unfold ret. now rewrite app_nil_r, set_heap_id.
  - rewrite (bind_ok (alloc r) _ st _ _ eq_refl).
    rewrite (bind_ok _ _ _ _ _ (IH _)). unfold ret. simpl.
    rewrite length_app, set_heap_twice, <- app_assoc. simpl.
    now rewrite Nat.add_1_r.
Qed.

Lemma query_answered (statement : string) (values : list Value)
    (res : QueryResult) (db : DB) (st : State) :
  pool_query statement values (pool st) = (Ok res, db) →
  query statement values st
  = (Ok (seq (length (heap st)) (length (rows res)), rowCount res),
     after_query statement values (rows res) db st).
Proof.
  intros Hq. unfold query.
  assert (Hsend : send statement values st
                  = (Ok res, after_query statement values [] db st)).
  { unfold send, after_query. rewrite Hq. now rewrite app_nil_r. }
  rewrite (bind_ok _ _ _ _ _ Hsend).
  rewrite (bind_ok _ _ _ _ _ (alloc_rows_spec _ _)). unfold ret.
  f_equal; unfold after_query, set_heap; simpl; now rewrite app_nil_r.
Qed.

Lemma query_issued (statement : string) (values : list Value) (st : State) :
  issued (snd (query statement values st)) = issued st ++ [(statement, values)].
Proof.
  destruct (pool_query statement values (pool st)) as [[res|e] db] eqn:Hq.
  - now rewrite (query_answered _ _ _ _ _ Hq).
  - unfold query, bind, send. now rewrite Hq.
Qed.

Lemma mapM_deserialize_issued (entityId : string) :
  ∀ (ls : list nat) (st : State),
    issued (snd (mapM (fun instance => deserialize entityId (RObj instance)) ls st))
    = issued st.
Proof.
  induction ls as [|l ls IH]; intros st; cbn [mapM]; [reflexivity|].
  pose proof (deserialize_keeps entityId (RObj l) st) as (_ & _ & Hi & _).
  unfold bind at 1.
  destruct (deserialize entityId (RObj l) st) as [[d|e] st1]; simpl in Hi.
  - rewrite <- Hi, <- (IH st1). unfold bind.
    now destruct (mapM _ ls st1) as [[ds|e] st2].
  - exact Hi.
Qed.

(** C1: the statement that [getEntities] sends is sent without bound
    values.  Whatever the filter, the call sends nothing, or it sends the
    statement that it has built together with the empty list of values: a
    filter value can reach the backend only inside the text that
    [getWhereValue] put into the clause. *)
Theorem getEntities_binds_no_values (st : State) (entityId : string)
    (filter : option EntityFilter) :
  let st' := snd (getEntities entityId filter st) in
  issued st' = issued st
  ∨ ∃ statement,
      getEntities_statement entityId filter = Ok statement
      ∧ issued st' = issued st ++ [(statement, [])].
Proof.
  cbv zeta. unfold getEntities.
  destruct (schema st) as [sch|] eqn:Hs.
  - rewrite (errorWrapper_initialized _ st sch Hs).
    unfold bind at 1, lift.
    destruct (getEntities_statement entityId filter) as [statement|e];
      [|now left].
    right. exists statement. split; [reflexivity|].
    rewrite <- query_issued. unfold bind.
    destruct (query statement [] st) as [[res|e] st1]; [|reflexivity].
    apply mapM_deserialize_issued.
  - rewrite (errorWrapper_uninitialized _ st Hs). now left.
Qed.

(** ** The filter compiler *)

Lemma split_first_underscore_none :
  ∀ key, has_underscore key = false → split_first_underscore key = (key, None).
Proof.
  induction key as [|c key IH]; simpl; intros Hu; [reflexivity|].
  apply orb_false_iff in Hu as [Hc Hu]. rewrite Hc, (IH Hu). reflexivity.
Qed.

Lemma split_first_underscore_some (suffix : string) :
  ∀ fieldName,
    has_underscore fieldName = false →
    split_first_underscore (fieldName +:+ "_" +:+ suffix)
    = (fieldName, Some suffix).
Proof.
  induction fieldName as [|c fieldName IH]; simpl; intros Hu; [reflexivity|].
  apply orb_false_iff in Hu as [Hc Hu]. rewrite Hc, (IH Hu). reflexivity.
Qed.

Lemma split_key_whole (key : string) :
  has_underscore key = false → split_key key = [key].
Proof. intros Hu. unfold split_key. now rewrite split_first_underscore_none. Qed.

Lemma split_key_at_underscore (fieldName suffix : string) :
  has_underscore fieldName = false →
  split_key (fieldName +:+ "_" +:+ suffix) = [fieldName; suffix; EmptyString].
Proof.
  intros Hu. unfold split_key. now rewrite split_first_underscore_some.
Qed.

Lemma whereFragment_unregistered (key : string) (value : Value) :
  sqlSymbolsForFilterType !! filterType_of key = None →
  whereFragment (key, value) = Throw (UnknownFilterType (filterType_of key)).
Proof.
  unfold whereFragment, filterType_of. intros Hn. cbv zeta. now rewrite Hn.
Qed.

Lemma getEntities_statement_throws (entityId : string) (filter : EntityFilter)
    (where_ : Obj) (e : Exn) :
  filter_where filter = Some where_ →
  map_throwing whereFragment where_ = Throw e →
  getEntities_statement entityId (Some filter) = Throw e.
Proof.
  intros Hw Hm. unfold getEntities_statement. simpl. now rewrite Hw, Hm.
Qed.

Lemma getEntities_throws (st : State) (sch : Schema) (entityId : string)
    (filter : option EntityFilter) (e : Exn) :
  schema st = Some sch →
  getEntities_statement entityId filter = Throw e →
  getEntities entityId filter st = (Throw e, st).
Proof.
  intros Hs Hstmt. unfold getEntities.
  rewrite (errorWrapper_initialized _ st sch Hs).
  unfold bind, lift. now rewrite Hstmt.
Qed.

(** C5: a key is split at its first underscore, and neither the operators
    nor the fields of the entity are consulted.  A key without an underscore
    is a field name with the empty suffix, which means equals.  A key with
    an underscore has the text before the first underscore as its field name
    and all the text after it as its operator suffix, also when the key is
    exactly the name of a field: the list compiler compiles the predicate of
    that suffix on the shorter name, the where-clause builder of the plural
    field looks the suffix up, and the list call with the equality filter
    that [getEntityDerivedField] builds for such a field fails with the
    error for an unknown filter type when the operator table does not have
    the suffix. *)
Theorem key_split_at_first_underscore (key : string) (value : Value) :
  (has_underscore key = false →
   whereFragment (key, value) = predicate_for key EmptyString value
   ∧ ∀ whereObject,
       buildWhereObject_step whereObject (key, value)
       = Ok (obj_set key ("equals", value) whereObject))
  ∧ (∀ fieldName suffix,
        has_underscore fieldName = false →
        key = fieldName +:+ "_" +:+ suffix →
        whereFragment (key, value) = predicate_for fieldName suffix value
        ∧ (∀ whereObject,
              buildWhereObject_step whereObject (key, value)
              = match storeCondition_at suffix with
                | None => Throw (UnknownWhereCondition fieldName suffix)
                | Some storeCondition =>
                    Ok (obj_set fieldName (storeCondition, value) whereObject)
                end)
        ∧ (sqlSymbolsForFilterType !! suffix = None →
           ∀ st sch entityId instanceId,
             schema st = Some sch →
             getEntities entityId (Some (equality_filter key instanceId)) st
             = (Throw (UnknownFilterType suffix), st))).
Proof.
  split.
  - intros Hu. split.
    + unfold whereFragment. now rewrite (split_key_whole key Hu).
    + intros whereObject. unfold buildWhereObject_step.
      now rewrite (split_key_whole key Hu).
  - intros fieldName suffix Hu ->. split; [|split].
    + unfold whereFragment.
      now rewrite (split_key_at_underscore fieldName suffix Hu).
    + intros whereObject. unfold buildWhereObject_step.
      now rewrite (split_key_at_underscore fieldName suffix Hu).
    + intros Hn st sch entityId instanceId Hs.
      apply (getEntities_throws st sch _ _ _ Hs).
      apply (getEntities_statement_throws _ _
               [(fieldName +:+ "_" +:+ suffix, VString instanceId)]);
        [reflexivity|].
      cbn [map_throwing]. rewrite whereFragment_unregistered.
      * unfold filterType_of.
        now rewrite (split_key_at_underscore fieldName suffix Hu).
      * unfold filterType_of.
        now rewrite (split_key_at_underscore fieldName suffix Hu).
Qed.

(** C6 (amended): when an entry of [where] has an operator suffix that the
    operator table does not have, [getEntities] fails, sends no statement
    and returns no rows; when the entries before it compile, the error is
    the one for an unknown filter type, and it names the operator suffix of
    the key (the text after its first underscore). *)
Theorem unknown_filter_type (st : State) (sch : Schema) (entityId : string)
    (filter : EntityFilter) (pre post : Obj) (key : string) (value : Value) :
  schema st = Some sch →
  filter_where filter = Some (pre ++ (key, value) :: post) →
  sqlSymbolsForFilterType !! filterType_of key = None →
  (∃ e, getEntities entityId (Some filter) st = (Throw e, st))
  ∧ ((∃ fragments, map_throwing whereFragment pre = Ok fragments) →
     getEntities entityId (Some filter) st
     = (Throw (UnknownFilterType (filterType_of key)), st)).
Proof.
  intros Hs Hw Hn.
  pose proof (whereFragment_unregistered key value Hn) as Hfrag.
  destruct (map_throwing_throws whereFragment (key, value) _ Hfrag pre post)
    as [[e He] Hfirst].
  split.
  - exists e. apply (getEntities_throws st sch _ _ _ Hs).
    now apply (getEntities_statement_throws _ _ _ _ Hw).
  - intros [fragments Hpre].
    apply (getEntities_throws st sch _ _ _ Hs).
    apply (getEntities_statement_throws _ _ _ _ Hw).
    now apply (Hfirst fragments).
Qed.

(** C8: a list call with [skip] and without [first] sends the statement
    whose clauses are [LIMIT -1] and then the offset. *)
Theorem skip_without_first_statement (entityId : string) (skip : Z) :
  skip ≠ 0 →
  getEntities_statement entityId
    (Some {| filter_where := None; filter_first := None;
             filter_skip := Some skip; filter_orderBy := None;
             filter_orderDirection := None |})
  = Ok ("SELECT * FROM " +:+ quoted entityId +:+ " LIMIT -1 OFFSET "
        +:+ pretty skip).
Proof.
  intros Hskip. unfold getEntities_statement. simpl.
  destruct (Z.eqb_spec skip 0) as [->|_]; [contradiction|]. reflexivity.
Qed.

(** The clauses of the statement come in the order filter, ordering,
    direction, limit, offset. *)
Lemma getEntities_statement_clause_order (entityId : string)
    (filter : EntityFilter) :
  getEntities_statement entityId (Some filter)
  = match
      match filter_where filter with
      | Some where_ =>
          match map_throwing whereFragment where_ with
          | Throw e => Throw e
          | Ok whereFragments => Ok ["WHERE " +:+ join " AND " whereFragments]
          end
      | None => Ok []
      end
    with
    | Throw e => Throw e
    | Ok where_clause =>
        Ok ("SELECT * FROM " +:+ quoted entityId +:+ " "
            +:+ join " " (where_clause ++ order_clause filter
                          ++ direction_clause filter ++ limit_clause filter
                          ++ offset_clause filter))
    end.
Proof.
  unfold getEntities_statement, order_clause, direction_clause, limit_clause,
    offset_clause.
  cbn [mbind option_bind].
  destruct (filter_where filter) as [where_|];
    [destruct (map_throwing whereFragment where_) as [whereFragments|e];
     [|reflexivity]|];
    destruct (truthy_string (filter_orderBy filter));
    destruct (truthy_string (filter_orderDirection filter));
    destruct (truthy_number (filter_first filter));
    destruct (truthy_number (filter_skip filter));
    cbn [negb app]; rewrite <- ?app_assoc; reflexivity.
Qed.

(** What [updateEntity] sends: the pairs of the instance other than the
    column [id], and the [id] argument as the last bound value. *)
Lemma updateEntity_sends (st : State) (sch : Schema) (entityId id : string)
    (instance : nat) :
  schema st = Some sch →
  let updatePairs :=
    List.filter (fun p => negb (String.eqb (column p) "id"))
      (getColumnValuePairs (default [] (heap st !! instance))) in
  issued (snd (updateEntity entityId id instance st))
  = issued st ++ [(updateStatement entityId updatePairs,
                   map value updatePairs ++ [VString id])].
Proof.
  intros Hs. cbv zeta. unfold updateEntity.
  rewrite (errorWrapper_initialized _ st sch Hs).
  rewrite (bind_ok (read instance) _ st st _ eq_refl). cbv zeta.
  rewrite <- query_issued. unfold bind.
  destruct (query _ _ st) as [[res|e] st1]; [|reflexivity].
  apply deserialize_keeps.
Qed.

(** ** Writes *)

Lemma deserialize_undefined (st : State) (sch : Schema) (entity : Entity)
    (entityId : string) :
  schema st = Some sch →
  List.find (fun e => String.eqb (entity_id e) entityId) (entities sch)
  = Some entity →
  deserialize entityId RUndefined st
  = (Throw EntriesOfUndefined, set_heap (heap st ++ [[]]) st).
Proof.
  intros Hs Hfind. unfold deserialize.
  rewrite (bind_ok get_schema _ st st (schema st) eq_refl).
  rewrite Hs. unfold find_entity. now rewrite Hfind.
Qed.

(** C4: when the pool answers the statement of [updateEntity] with no
    row, the call does not return: reading the entries of the missing row
    raises a type error. *)
Theorem updateEntity_without_row (st : State) (sch : Schema) (entity : Entity)
    (entityId id : string) (instance : nat) (n : nat) (db : DB) :
  schema st = Some sch →
  List.find (fun e => String.eqb (entity_id e) entityId) (entities sch)
  = Some entity →
  (let updatePairs :=
     List.filter (fun p => negb (String.eqb (column p) "id"))
       (getColumnValuePairs (default [] (heap st !! instance))) in
   pool_query (updateStatement entityId updatePairs)
     (map value updatePairs ++ [VString id]) (pool st)
   = (Ok {| rows := []; rowCount := n |}, db)) →
  fst (updateEntity entityId id instance st) = Throw EntriesOfUndefined.
Proof.
  cbv zeta. intros Hs Hfind Hq. unfold updateEntity.
  rewrite (errorWrapper_initialized _ st sch Hs).
  rewrite (bind_ok (read instance) _ st st _ eq_refl). cbv zeta.
  rewrite (bind_ok _ _ _ _ _ (query_answered _ _ _ _ _ Hq)). simpl.
  now rewrite (deserialize_undefined _ sch entity).
Qed.

(** C2: [insertEntity] sets the [id] of the caller's instance to the [id]
    argument before it encodes the instance, whatever [id] the instance
    had.  When the encoder pairs the column [id] with the [id] of the
    instance, the pool answers with the stored row, which holds the values
    that were bound, and that row decodes (the values of its list-kind
    fields parse, its properties that match no field have names that
    [Object.prototype] does not have, and [id] is neither boolean-typed nor
    of list kind), the call returns the decoded stored row, whose [id] is the
    [id] argument. *)
Theorem insertEntity_forces_id (st : State) (sch : Schema) (entity : Entity)
    (entityId id : string) (instance : nat) (inst stored : Obj)
    (more : list Obj) (n : nat) (db : DB) :
  schema st = Some sch →
  List.find (fun e => String.eqb (entity_id e) entityId) (entities sch)
  = Some entity →
  heap st !! instance = Some inst →
  (∀ o s, obj_get "id" o = Some (VString s) →
          In {| column := "id"; value := VString s |} (getColumnValuePairs o)) →
  (let pairs := getColumnValuePairs (obj_set "id" (VString id) inst) in
   pool_query (insertStatement entityId pairs) (map value pairs) (pool st)
   = (Ok {| rows := stored :: more; rowCount := n |}, db)
   ∧ ∀ p, In p pairs → obj_get (column p) stored = Some (value p)) →
  NoDup (keys stored) →
  (∀ k v field,
      In (k, v) stored →
      entity_fieldByName entity !! k = Some field →
      String.eqb (field_baseGqlType field) "Boolean" = false →
      FieldKind_eqb (field_kind field) LIST = true →
      ∃ parsed, JSON_parse v = Ok parsed) →
  own_names_only entity stored →
  (∀ field,
      entity_fieldByName entity !! "id" = Some field →
      String.eqb (field_baseGqlType field) "Boolean" = false
      ∧ FieldKind_eqb (field_kind field) LIST = false) →
  ∃ d st' row',
    insertEntity entityId id instance st = (Ok d, st')
    ∧ heap st' !! instance = Some (obj_set "id" (VString id) inst)
    ∧ (let pairs := getColumnValuePairs (obj_set "id" (VString id) inst) in
       issued st'
       = issued st ++ [(insertStatement entityId pairs, map value pairs)])
    ∧ heap st' !! d = Some row'
    ∧ map_throwing (decoded entity) stored = Ok row'
    ∧ obj_get "id" row' = Some (VString id).
Proof.
  cbv zeta. intros Hs Hfind Hinst Hpairs [Hq Hstored] Hnd Hparse Hown Hplain.
  set (forced := obj_set "id" (VString id) inst) in *.
  set (pairs := getColumnValuePairs forced) in *.
  pose proof (lookup_lt_Some _ _ _ Hinst) as Hlt.
  set (st1 := set_heap (<[instance := forced]> (heap st)) st).
  assert (Hwrite : write instance "id" (VString id) st = (Ok tt, st1)).
  { unfold write. now rewrite Hinst. }
  assert (Hread : read instance st1 = (Ok forced, st1)).
  { unfold read. simpl. now rewrite list_lookup_insert_eq. }
  set (st2 := after_query (insertStatement entityId pairs) (map value pairs)
                (stored :: more) db st1).
  assert (Hquery : query (insertStatement entityId pairs) (map value pairs) st1
                   = (Ok (seq (length (heap st1)) (S (length more)), n), st2)).
  { now rewrite (query_answered _ _ _ db st1 Hq). }
  assert (Hl : heap st2 !! length (heap st1) = Some stored).
  { simpl. now rewrite list_lookup_middle. }
  pose proof (deserialize_row st2 sch entity entityId _ stored Hs Hfind Hl Hnd)
    as Hrow.
  destruct (map_throwing_decoded_total entity stored Hparse Hown) as [row' Hm].
  rewrite Hm in Hrow.
  assert (Hid : obj_get "id" stored = Some (VString id)).
  { apply (Hstored {| column := "id"; value := VString id |}).
    apply Hpairs. apply obj_get_set_eq. }
  destruct (map_throwing_decoded_get entity stored row' "id" _ Hm Hid)
    as (v' & Hget' & Hdec).
  assert (Hv' : v' = VString id).
  { unfold decoded in Hdec.
    destruct (entity_fieldByName entity !! "id") as [f|];
      [|change (inherited "id") with false in Hdec; now inversion Hdec].
    destruct (Hplain f eq_refl) as [Hb Hk]. rewrite Hb, Hk in Hdec.
    now inversion Hdec. }
  subst v'.
  exists (length (heap st2)), (set_heap (heap st2 ++ [row']) st2), row'.
  split; [|split; [|split; [|split; [|split]]]].
  - unfold insertEntity.
    rewrite (errorWrapper_initialized _ st sch Hs).
    rewrite (bind_ok _ _ _ _ _ Hwrite), (bind_ok _ _ _ _ _ Hread). cbv zeta.
    fold pairs. rewrite (bind_ok _ _ _ _ _ Hquery). exact Hrow.
  - simpl. rewrite <- app_assoc. apply lookup_app_l_Some.
    now apply list_lookup_insert_eq.
  - reflexivity.
  - simpl. now rewrite list_lookup_middle.
  - exact Hm.
  - exact Hget'.
Qed.

End Properties.

(** * Examples *)

Section Examples.

Import Demo.

Lemma NoDup_keys_owner_row : NoDup (keys owner_row).
Proof. apply (bool_decide_unpack _). vm_compute. exact I. Defined.

Lemma NoDup_keys_bob_stored : NoDup (keys bob_stored).
Proof. apply (bool_decide_unpack _). vm_compute. exact I. Defined.

(** Discharges, for a concrete row, the premise that its properties have
    names that [Object.prototype] does not have. *)
Ltac own_names :=
  let k := fresh "k" in
  let v := fresh "v" in
  let Hin := fresh "Hin" in
  let Hnone := fresh "Hnone" in
  intros k v Hin Hnone; simpl in Hin;
  repeat (destruct Hin as [Hin|Hin]; [inversion Hin; subst; reflexivity|]);
  contradiction.

(** Discharges, for a concrete row, the premise that the values of the
    list-kind fields parse. *)
Ltac list_fields_parse :=
  let k := fresh "k" in
  let v := fresh "v" in
  let f := fresh "f" in
  let Hin := fresh "Hin" in
  let Hf := fresh "Hf" in
  let Hb := fresh "Hb" in
  let Hl := fresh "Hl" in
  intros k v f Hin Hf Hb Hl; simpl in Hin;
  repeat (destruct Hin as [Hin|Hin];
          [inversion Hin; subst k v; vm_compute in Hf;
           first [ discriminate Hf
                 | inversion Hf; subst f;
                   first [ discriminate Hl | discriminate Hb
                         | now exists (VArray []) ] ] |]);
  contradiction.

(** The store without a schema. *)
Lemma uninitialized_store_witness :
  let st := initial no_row None [] in
  schema st = None
  ∧ @getEntities (env no_row) "Pet" None st = (Throw Uninitialized, st)
  ∧ @teardown (env no_row) st = (Ok tt, st)
  ∧ @load (env no_row) None st = (Ok tt, st).
Proof.
  cbv zeta. split; [reflexivity|].
  destruct (@uninitialized_store (env no_row) (initial no_row None []) eq_refl)
    as (_ & _ & _ & _ & _ & Hlist & _ & Hteardown & Hload).
  split; [apply Hlist|]. split; [exact Hteardown | exact Hload].
Defined.

(** The decoded copy of a stored row. *)
Lemma deserialize_shallow_copy_witness :
  let st := initial no_row (Some demo_schema) [owner_row] in
  let result := @deserialize (env no_row) "Owner" (RObj 0) st in
  heap (snd result) !! 0%nat = Some owner_row
  ∧ ∃ row',
      fst result = Ok 1%nat
      ∧ heap (snd result) !! 1%nat = Some row'
      ∧ keys row' = keys owner_row
      ∧ obj_get "note" row' = Some (VNumber 7)
      ∧ obj_get "name" row' = Some (VString "bob").
Proof.
  cbv zeta.
  destruct (@deserialize_shallow_copy (env no_row)
              (initial no_row (Some demo_schema) [owner_row]) "Owner" (RObj 0))
    as [Hframe Hres].
  split; [now apply Hframe|].
  destruct (Hres demo_schema Owner 0%nat owner_row eq_refl eq_refl eq_refl
              eq_refl NoDup_keys_owner_row) as [Hok Htotal].
  destruct Htotal as [d Hd]; [list_fields_parse | own_names |].
  destruct (Hok d Hd) as (-> & row' & Hrow' & Hkeys & Hprops).
  exists row'. split; [exact Hd|]. split; [exact Hrow'|].
  split; [exact Hkeys|].
  split; [exact (proj2 (Hprops "note" (VNumber 7) eq_refl))
         | exact (Hprops "name" (VString "bob") eq_refl)].
Defined.

(** A row of [Owner] with a column of the name [constructor]. *)
Lemma deserialize_throws_on_inherited_name_witness :
  let row := [("id", VString "x"); ("constructor", VNumber 7)] in
  let st := initial no_row (Some demo_schema) [row] in
  let result := @deserialize (env no_row) "Owner" (RObj 0) st in
  fst result
  = Throw (TypeError "Cannot read properties of undefined (reading 'toString')")
  ∧ heap (snd result) !! 0%nat = Some row.
Proof.
  cbv zeta.
  destruct (@deserialize_throws_on_inherited_name (env no_row)
              (initial no_row (Some demo_schema)
                 [[("id", VString "x"); ("constructor", VNumber 7)]])
              demo_schema Owner "Owner" 0%nat [("id", VString "x")] []
              "constructor" (VNumber 7))
    as (_ & Hfirst & Hframe).
  - reflexivity.
  - reflexivity.
  - reflexivity.
  - apply (bool_decide_unpack _). vm_compute. exact I.
  - reflexivity.
  - reflexivity.
  - split; [|now apply Hframe].
    apply Hfirst. exists [("id", VString "x")]. reflexivity.
Defined.

(** The number 1 in a boolean column. *)
Lemma deserialize_boolean_witness :
  ∃ d st' row' b,
    @deserialize (env no_row) "Owner" (RObj 0)
      (initial no_row (Some demo_schema) [owner_row]) = (Ok d, st')
    ∧ heap st' !! d = Some row'
    ∧ obj_get "active" row' = Some (VBool b)
    ∧ (b = true ↔ VNumber 1 = VNumber 1).
Proof.
  apply (@deserialize_boolean (env no_row)
           (initial no_row (Some demo_schema) [owner_row]) demo_schema Owner
           "Owner" 0%nat owner_row "active" (VNumber 1)
           (scalar "active" "Boolean")).
  - reflexivity.
  - reflexivity.
  - reflexivity.
  - exact NoDup_keys_owner_row.
  - list_fields_parse.
  - own_names.
  - reflexivity.
  - reflexivity.
  - reflexivity.
Defined.

(** The native [true] in a boolean column is decoded to [false]. *)
Lemma native_true_decodes_to_false :
  let st := initial no_row (Some demo_schema)
              [[("id", VString "x"); ("active", VBool true)]] in
  let result := @deserialize (env no_row) "Owner" (RObj 0) st in
  fst result = Ok 1%nat
  ∧ heap (snd result) !! 1%nat
    = Some [("id", VString "x"); ("active", VBool false)].
Proof. cbv zeta. split; vm_compute; reflexivity. Qed.

(** The derived fields of [Owner]: [pets] lists the pets of the owner,
    [name] is not derived, and [strays] names an entity that the schema
    does not have. *)
Lemma derived_field_resolution_witness :
  let st := initial no_row (Some demo_schema) [] in
  @getEntityDerivedField (env no_row) "Owner" "o1" "pets" st
  = @getEntities (env no_row) "Pet" (Some (equality_filter "ownerId" "o1")) st
  ∧ @getEntityDerivedField (env no_row) "Owner" "o1" "name" st
    = (Throw (DerivedFieldNotFound "Owner" "name"), st)
  ∧ @getEntityDerivedField (env no_row) "Owner" "o1" "strays" st
    = (Throw (EntityNotFoundForName "Stray"), st).
Proof.
  cbv zeta.
  pose proof (fun name =>
                @derived_field_resolution (env no_row)
                  (initial no_row (Some demo_schema) []) demo_schema Owner
                  "Owner" "o1" name eq_refl eq_refl) as Hres.
  split; [|split].
  - destruct (Hres "pets") as [_ Hfound].
    exact (proj2 (proj2 (Hfound (derived "pets" "Pet" "Pet" "ownerId") eq_refl))).
  - destruct (Hres "name") as [Hnone _]. apply Hnone.
    intros field Hin [Hkind Hname]. simpl in Hin.
    repeat (destruct Hin as [Hin|Hin]; [subst field; discriminate|]).
    contradiction.
  - destruct (Hres "strays") as [_ Hfound].
    exact (proj2 (proj2 (Hfound (derived "strays" "Stray" "Stray" "ownerId")
                           eq_refl))).
Defined.

(** The key [age_zzz]. *)
Lemma unknown_filter_type_witness :
  let st := initial no_row (Some demo_schema) [] in
  @getEntities (env no_row) "Pet"
    (Some (where_only [("age_zzz", VNumber 1)])) st
  = (Throw (UnknownFilterType "zzz"), st).
Proof.
  cbv zeta.
  destruct (@unknown_filter_type (env no_row)
              (initial no_row (Some demo_schema) []) demo_schema "Pet"
              (where_only [("age_zzz", VNumber 1)]) [] [] "age_zzz" (VNumber 1)
              eq_refl eq_refl eq_refl) as [_ Hfirst].
  apply Hfirst. exists []. reflexivity.
Defined.

(** Two keys with the same unknown suffix fail with the same error: the
    error does not tell which key it is about. *)
Lemma unknown_filter_type_omits_key :
  let st := initial no_row (Some demo_schema) [] in
  "age_zzz" ≠ "name_zzz"
  ∧ fst (@getEntities (env no_row) "Pet"
           (Some (where_only [("age_zzz", VNumber 1)])) st)
    = Throw (Error "SQL operators not found for filter type: zzz")
  ∧ fst (@getEntities (env no_row) "Pet"
           (Some (where_only [("name_zzz", VNumber 1)])) st)
    = Throw (Error "SQL operators not found for filter type: zzz").
Proof. cbv zeta. split; [discriminate|]. split; vm_compute; reflexivity. Qed.

(** The key [owner_id], which is the name of a field of [Toy], next to the
    keys [name] and [age_gt]. *)
Lemma key_split_at_first_underscore_witness :
  let st := initial no_row (Some toy_schema) [] in
  @whereFragment (env no_row) ("name", VString "bob")
  = @predicate_for (env no_row) "name" EmptyString (VString "bob")
  ∧ @whereFragment (env no_row) ("age_gt", VNumber 10)
    = @predicate_for (env no_row) "age" "gt" (VNumber 10)
  ∧ buildWhereObject_step [] ("age_gt", VNumber 10)
    = Ok [("age", ("gt", VNumber 10))]
  ∧ @whereFragment (env no_row) ("owner_id", VString "o1")
    = @predicate_for (env no_row) "owner" "id" (VString "o1")
  ∧ buildWhereObject_step [] ("owner_id", VString "o1")
    = Throw (UnknownWhereCondition "owner" "id")
  ∧ @getEntities (env no_row) "Toy" (Some (equality_filter "owner_id" "o1")) st
    = (Throw (UnknownFilterType "id"), st).
Proof.
  cbv zeta.
  pose proof (proj2 (@key_split_at_first_underscore (env no_row)
                       "age_gt" (VNumber 10)) "age" "gt" eq_refl eq_refl)
    as (Hgt & Hgt' & _).
  pose proof (proj2 (@key_split_at_first_underscore (env no_row)
                       "owner_id" (VString "o1")) "owner" "id" eq_refl eq_refl)
    as (Hid & Hid' & Hfails).
  split; [|split; [|split; [|split; [|split]]]].
  - exact (proj1 (proj1 (@key_split_at_first_underscore (env no_row)
                           "name" (VString "bob")) eq_refl)).
  - exact Hgt.
  - exact (Hgt' []).
  - exact Hid.
  - exact (Hid' []).
  - exact (Hfails eq_refl (initial no_row (Some toy_schema) []) toy_schema
             "Toy" "o1" eq_refl).
Defined.

(** The derived field [toys] of [Keeper] goes through the field [owner_id]
    of [Toy]: resolving it fails, since the list call reads [id] as the
    operator of the key. *)
Lemma derived_field_through_underscore_fails :
  fst (@getEntityDerivedField (env no_row) "Keeper" "k1" "toys"
         (initial no_row (Some toy_schema) []))
  = Throw (Error "SQL operators not found for filter type: id").
Proof. vm_compute. reflexivity. Qed.

(** A key that is a field name with an underscore is not compiled to an
    equality on that field: both compilers take [id] for its operator. *)
Lemma field_name_with_underscore_rejected :
  buildWhereObject [("owner_id", VString "o1")]
  = Throw (Error "Invalid query: Unknown where condition: owner_id")
  ∧ fst (@getEntities (env no_row) "Pet"
           (Some (where_only [("owner_id", VString "o1")]))
           (initial no_row (Some demo_schema) []))
    = Throw (Error "SQL operators not found for filter type: id").
Proof. split; vm_compute; reflexivity. Qed.

(** [skip: 1] without [first]. *)
Lemma skip_without_first_statement_witness :
  @getEntities_statement (env no_row) "Pet"
    (Some {| filter_where := None; filter_first := None;
             filter_skip := Some 1; filter_orderBy := None;
             filter_orderDirection := None |})
  = Ok ("SELECT * FROM " +:+ quoted "Pet" +:+ " LIMIT -1 OFFSET 1").
Proof.
  apply (@skip_without_first_statement (env no_row) "Pet" 1). lia.
Defined.

Lemma stub_pairs_keep_id :
  ∀ (o : Obj) (s : string),
    obj_get "id" o = Some (VString s) →
    In {| column := "id"; value := VString s |}
      (map (fun entry => {| column := fst entry; value := snd entry |}) o).
Proof.
  induction o as [|[k v] o IH]; intros s Hget; cbn [obj_get] in Hget.
  - discriminate.
  - destruct (String.eqb_spec k "id") as [->|Hne].
    + inversion Hget; subst v. now left.
    + right. now apply IH.
Defined.

(** An instance with the [id] [y], inserted under the [id] [x]. *)
Lemma insertEntity_forces_id_witness :
  ∃ d st' row',
    @insertEntity (env (one_row bob_stored)) "Owner" "x" 0%nat
      (initial (one_row bob_stored) (Some demo_schema) [bob]) = (Ok d, st')
    ∧ heap st' !! 0%nat = Some bob_stored
    ∧ issued st'
      = [("INSERT INTO " +:+ quoted "Owner" +:+ " (id, name) VALUES ($1, $2) RETURNING *",
          [VString "x"; VString "bob"])]
    ∧ heap st' !! d = Some row'
    ∧ map_throwing (@decoded (env (one_row bob_stored)) Owner) bob_stored
      = Ok row'
    ∧ obj_get "id" row' = Some (VString "x").
Proof.
  apply (@insertEntity_forces_id (env (one_row bob_stored))
           (initial (one_row bob_stored) (Some demo_schema) [bob])
           demo_schema Owner "Owner" "x" 0%nat bob bob_stored [] 1%nat tt).
  - reflexivity.
  - reflexivity.
  - reflexivity.
  - exact stub_pairs_keep_id.
  - cbv zeta. split; [reflexivity|].
    intros p Hin. simpl in Hin.
    repeat (destruct Hin as [Hin|Hin]; [subst p; reflexivity|]).
    contradiction.
  - exact NoDup_keys_bob_stored.
  - list_fields_parse.
  - own_names.
  - intros field Hf. vm_compute in Hf. inversion Hf; subst field.
    split; reflexivity.
Defined.

(** An update of an [id] that no row has. *)
Lemma updateEntity_without_row_witness :
  fst (@updateEntity (env no_row) "Owner" "x" 0%nat
         (initial no_row (Some demo_schema) [bob]))
  = Throw (TypeError "Cannot convert undefined or null to object").
Proof.
  apply (@updateEntity_without_row (env no_row)
           (initial no_row (Some demo_schema) [bob]) demo_schema Owner
           "Owner" "x" 0%nat 0%nat tt); reflexivity.
Defined.

(** ** Statements of list calls *)

(** The filter values of a list call are not bound, those of [getEntity]
    are. *)
Example list_sends_no_values :
  issued (snd (@getEntities (env no_row) "Pet"
                 (Some (where_only [("name", VString "bob")]))
                 (initial no_row (Some demo_schema) [])))
  = [("SELECT * FROM " +:+ quoted "Pet" +:+ " WHERE " +:+ quoted "name" +:+ " =",
      [])]
  ∧ issued (snd (@getEntity (env no_row) "Pet" "bob"
                   (initial no_row (Some demo_schema) [])))
    = [("SELECT " +:+ quoted "Pet" +:+ ".* FROM " +:+ quoted "Pet" +:+ " WHERE "
        +:+ quoted "Pet" +:+ "." +:+ quoted "id" +:+ " = $1",
        [VString "bob"])].
Proof. split; vm_compute; reflexivity. Qed.

(** The list call of the pagination example. *)
Example pagination_statement :
  @getEntities_statement (env no_row) "Pet"
    (Some {| filter_where := None; filter_first := Some 2;
             filter_skip := Some 1; filter_orderBy := Some "id";
             filter_orderDirection := Some "asc" |})
  = Ok ("SELECT * FROM " +:+ quoted "Pet" +:+ " ORDER BY " +:+ quoted "id"
        +:+ " asc LIMIT 2 OFFSET 1").
Proof. vm_compute. reflexivity. Qed.

(** [first: 0] is read as no limit. *)
Example first_zero_statement :
  @getEntities_statement (env no_row) "Pet"
    (Some {| filter_where := None; filter_first := Some 0;
             filter_skip := None; filter_orderBy := None;
             filter_orderDirection := None |})
  = Ok ("SELECT * FROM " +:+ quoted "Pet" +:+ " ").
Proof. vm_compute. reflexivity. Qed.

End Examples.


(** * Further properties *)

Section Lifecycle.

Context `{Env}.

(** ** Queries, whatever the pool answers *)

Lemma query_rejected (statement : string) (values : list Value) (e : Exn)
    (db : DB) (st : State) :
  pool_query statement values (pool st) = (Throw e, db) →
  query statement values st
  = (Throw e, after_query statement values [] db st).
Proof.
  intros Hq. unfold query, bind, send, after_query. rewrite Hq.
  now rewrite app_nil_r.
Qed.

Lemma query_keeps (statement : string) (values : list Value) (st : State) :
  let st' := snd (query statement values st) in
  schema st' = schema st
  ∧ ∀ l o, heap st !! l = Some o → heap st' !! l = Some o.
Proof.
  cbv zeta.
  destruct (pool_query statement values (pool st)) as [[res|e] db] eqn:Hq.
  - rewrite (query_answered _ _ _ _ _ Hq). simpl. split; [reflexivity|].
    intros l o Hl. now apply lookup_app_l_Some.
  - rewrite (query_rejected _ _ _ _ _ Hq). simpl. split; [reflexivity|].
    intros l o Hl. now rewrite app_nil_r.
Qed.

(** Every statement of a [Promise.all] is sent, in order, whether or not
    some are rejected. *)
Lemma Promise_all_sends {A} (statement_of : A → string) :
  ∀ (xs : list A) (st : State),
    let st' :=
      snd (Promise_all
             (map (fun x => query (statement_of x) [] ;; ret tt) xs) st) in
    issued st' = issued st ++ map (fun x => (statement_of x, [])) xs
    ∧ schema st' = schema st
    ∧ ∀ l o, heap st !! l = Some o → heap st' !! l = Some o.
Proof.
  induction xs as [|x xs IH]; intros st; cbn [map Promise_all].
  - simpl. rewrite app_nil_r. now repeat split.
  - pose proof (query_issued (statement_of x) [] st) as Hi.
    pose proof (query_keeps (statement_of x) [] st) as [Hs Hh].
    assert (Hst : snd ((query (statement_of x) [] ;; ret tt) st)
                  = snd (query (statement_of x) [] st)).
    { unfold bind. now destruct (query (statement_of x) [] st) as [[r|e] st1]. }
    destruct ((query (statement_of x) [] ;; ret tt) st) as [[[]|e] st1];
      simpl in Hst; subst st1;
      destruct (IH (snd (query (statement_of x) [] st))) as (IHi & IHs & IHh);
      cbn [snd]; rewrite IHi, IHs, Hi, Hs, <- app_assoc;
      (split; [reflexivity|]); (split; [reflexivity|]);
      intros l o Hl; apply IHh, Hh, Hl.
Qed.

Lemma Promise_all_accepted {A} (statement_of : A → string) :
  accepts_all →
  ∀ (xs : list A) (st : State),
    fst (Promise_all
           (map (fun x => query (statement_of x) [] ;; ret tt) xs) st)
    = Ok tt.
Proof.
  intros Hacc. induction xs as [|x xs IH]; intros st; cbn [map Promise_all].
  - reflexivity.
  - destruct (Hacc (statement_of x) [] (pool st)) as (res & db & Hq).
    unfold bind at 1. rewrite (query_answered _ _ _ _ _ Hq). apply IH.
Qed.

(** ** [teardown] and [load] *)

Lemma teardown_unfold (st : State) :
  teardown st
  = match schema st with
    | Some sch =>
        Promise_all
          (map (fun entity => query (dropStatement entity) [] ;; ret tt)
             (entities sch)) st
    | None => (Ok tt, st)
    end.
Proof.
  unfold teardown. rewrite (bind_ok get_schema _ st st (schema st) eq_refl).
  now destruct (schema st).
Qed.

Lemma teardown_effect (st : State) :
  let st' := snd (teardown st) in
  issued st' = issued st ++ drops (schema st)
  ∧ schema st' = schema st
  ∧ ∀ l o, heap st !! l = Some o → heap st' !! l = Some o.
Proof.
  cbv zeta. rewrite teardown_unfold. destruct (schema st) as [sch|] eqn:Hs.
  - destruct (Promise_all_sends dropStatement (entities sch) st)
      as (Hi & Hs' & Hh).
    rewrite Hs in Hs'. now repeat split.
  - simpl. rewrite app_nil_r. now repeat split.
Qed.

Lemma teardown_accepted (st : State) : accepts_all → fst (teardown st) = Ok tt.
Proof.
  intros Hacc. rewrite teardown_unfold. destruct (schema st) as [sch|].
  - now apply (Promise_all_accepted dropStatement).
  - reflexivity.
Qed.

(** X1: [teardown] sends one [DROP TABLE IF EXISTS] per entity of the
    current schema, in the order of the entities and without bound values,
    whether or not the pool rejects some of them; it keeps the schema and
    changes no object.  When the pool rejects nothing it returns. *)
Theorem teardown_drops_every_table (st : State) :
  let st' := snd (teardown st) in
  issued st' = issued st ++ drops (schema st)
  ∧ schema st' = schema st
  ∧ (∀ l o, heap st !! l = Some o → heap st' !! l = Some o)
  ∧ (accepts_all → fst (teardown st) = Ok tt).
Proof.
  cbv zeta. destruct (teardown_effect st) as (Hi & Hs & Hh).
  repeat split; try assumption. apply teardown_accepted.
Qed.

Lemma load_after_teardown (newSchema : option Schema) (st st1 : State) :
  (match schema st with
   | Some _ => teardown
   | None => ret tt
   end) st = (Ok tt, st1) →
  let target :=
    match newSchema with
    | Some sch => Some sch
    | None => schema st1
    end in
  let st' := snd (load newSchema st) in
  issued st' = issued st1 ++ creates target
  ∧ schema st' = target
  ∧ (accepts_all → fst (load newSchema st) = Ok tt).
Proof.
  intros Hdown. cbv zeta. unfold load.
  rewrite (bind_ok get_schema _ st st (schema st) eq_refl).
  rewrite (bind_ok _ _ _ _ _ Hdown).
  set (st2 := match newSchema with
              | Some sch =>
                  {| schema := Some sch; heap := heap st1; pool := pool st1;
                     issued := issued st1 |}
              | None => st1
              end).
  assert (Hset : (match newSchema with
                  | Some sch => set_schema sch
                  | None => ret tt
                  end) st1 = (Ok tt, st2)).
  { unfold st2. now destruct newSchema. }
  rewrite (bind_ok _ _ _ _ _ Hset).
  rewrite (bind_ok get_schema _ st2 st2 (schema st2) eq_refl).
  assert (Htarget : schema st2 = match newSchema with
                                 | Some sch => Some sch
                                 | None => schema st1
                                 end).
  { unfold st2. now destruct newSchema. }
  assert (Hissued : issued st2 = issued st1).
  { unfold st2. now destruct newSchema. }
  rewrite <- Htarget, <- Hissued.
  destruct (schema st2) as [sch|] eqn:Hs2.
  - destruct (Promise_all_sends createStatement (entities sch) st2)
      as (Hi & Hs & _).
    split; [exact Hi|]. split; [exact (eq_trans Hs Hs2)|].
    intros Hacc.
    exact (Promise_all_accepted createStatement Hacc (entities sch) st2).
  - simpl. rewrite app_nil_r. now repeat split.
Qed.

(** X2: when the pool rejects nothing, [load] returns, having sent the
    [DROP] of every table of the schema it had and then the [CREATE TABLE]
    of every entity of the schema it ends with, which is the new schema when
    one is given and the schema it had otherwise. *)
Theorem load_drops_then_creates (st : State) (newSchema : option Schema) :
  accepts_all →
  let target :=
    match newSchema with
    | Some sch => Some sch
    | None => schema st
    end in
  let st' := snd (load newSchema st) in
  fst (load newSchema st) = Ok tt
  ∧ schema st' = target
  ∧ issued st' = issued st ++ drops (schema st) ++ creates target.
Proof.
  intros Hacc. cbv zeta.
  destruct (teardown_effect st) as (Hi & Hs & _).
  pose proof (teardown_accepted st Hacc) as Hok.
  assert (Hdown : ∃ st1,
             (match schema st with
              | Some _ => teardown
              | None => ret tt
              end) st = (Ok tt, st1)
             ∧ issued st1 = issued st ++ drops (schema st)
             ∧ schema st1 = schema st).
  { destruct (schema st) as [sch|] eqn:Hsch.
    - exists (snd (teardown st)). split; [|now split].
      destruct (teardown st) as [r st1]. simpl in Hok. now subst r.
    - exists st. simpl. rewrite app_nil_r. now repeat split. }
  destruct Hdown as (st1 & Hdown & Hi1 & Hs1).
  destruct (load_after_teardown newSchema st st1 Hdown) as (Hli & Hls & Hlok).
  rewrite Hs1 in Hli, Hls.
  split; [now apply Hlok|]. split; [exact Hls|].
  now rewrite Hli, Hi1, <- app_assoc.
Qed.

(** X3: when the store has a schema and [teardown] fails, [load] fails
    with the same error and stops there: the schema is the one it had, also
    when a new schema was given, and no [CREATE TABLE] is sent. *)
Theorem load_stops_when_teardown_fails (st : State) (sch : Schema)
    (newSchema : option Schema) (e : Exn) :
  schema st = Some sch →
  fst (teardown st) = Throw e →
  let st' := snd (load newSchema st) in
  fst (load newSchema st) = Throw e
  ∧ schema st' = Some sch
  ∧ issued st' = issued st ++ drops (Some sch).
Proof.
  intros Hs He. cbv zeta.
  destruct (teardown_effect st) as (Hi & Hsk & _).
  assert (Hload : load newSchema st = (Throw e, snd (teardown st))).
  { unfold load. rewrite (bind_ok get_schema _ st st (schema st) eq_refl).
    rewrite Hs. apply bind_throw.
    destruct (teardown st) as [r st1]. simpl in He. now subst r. }
  rewrite Hload. simpl. rewrite Hi, Hsk, Hs. now repeat split.
Qed.

End Lifecycle.

Section Frames.

Context `{Env}.

#[local] Instance same_schema_preorder : PreOrder same_schema.
Proof.
  split.
  - now intros st.
  - intros a b c Hab Hbc. unfold same_schema in *. congruence.
Qed.

#[local] Instance same_objects_preorder : PreOrder same_objects.
Proof.
  split.
  - now intros st l o.
  - intros a b c Hab Hbc l o Hl. now apply Hbc, Hab.
Qed.

#[local] Instance same_objects_but_preorder (i : nat) :
  PreOrder (same_objects_but i).
Proof.
  split.
  - now intros st l o.
  - intros a b c Hab Hbc l o Hne Hl. now apply Hbc, Hab.
Qed.

Section Keeps.

Context (R : State → State → Prop) `{!PreOrder R}.

Lemma keeps_ret {A} (a : A) : keeps R (ret a).
Proof. intros st. reflexivity. Qed.

Lemma keeps_throw {A} (e : Exn) : keeps R (@throw _ A e).
Proof. intros st. reflexivity. Qed.

Lemma keeps_lift {A} (r : Result A) : keeps R (lift r).
Proof. intros st. reflexivity. Qed.

Lemma keeps_get_schema : keeps R get_schema.
Proof. intros st. reflexivity. Qed.

Lemma keeps_read (l : nat) : keeps R (read l).
Proof. intros st. reflexivity. Qed.

Lemma keeps_bind {A B} (m : M A) (k : A → M B) :
  keeps R m → (∀ a, keeps R (k a)) → keeps R (bind m k).
Proof.
  intros Hm Hk st. unfold bind. specialize (Hm st).
  destruct (m st) as [[a|e] st1]; simpl in *.
  - transitivity st1; [exact Hm | apply Hk].
  - exact Hm.
Qed.

Lemma keeps_errorWrapper {A} (fn : M A) : keeps R fn → keeps R (errorWrapper fn).
Proof.
  intros Hfn. unfold errorWrapper. apply keeps_bind; [apply keeps_get_schema|].
  intros [sch|]; [exact Hfn | apply keeps_throw].
Qed.

Lemma keeps_mapM {A B} (f : A → M B) (xs : list A) :
  (∀ x, keeps R (f x)) → keeps R (mapM f xs).
Proof.
  intros Hf. induction xs as [|x xs IH]; cbn [mapM]; [apply keeps_ret|].
  apply keeps_bind; [apply Hf|]. intros y.
  apply keeps_bind; [exact IH|]. intros ys. apply keeps_ret.
Qed.

End Keeps.

Lemma keeps_same_objects_but {A} (i : nat) (m : M A) :
  keeps same_objects m → keeps (same_objects_but i) m.
Proof. intros Hm st l o _ Hl. now apply Hm. Qed.

Lemma query_same_schema (statement : string) (values : list Value) :
  keeps same_schema (query statement values).
Proof. intros st. exact (proj1 (query_keeps statement values st)). Qed.

Lemma query_same_objects (statement : string) (values : list Value) :
  keeps same_objects (query statement values).
Proof. intros st. exact (proj2 (query_keeps statement values st)). Qed.

Lemma deserialize_same_schema (entityId : string) (instance : Ref) :
  keeps same_schema (deserialize entityId instance).
Proof.
  intros st. destruct (deserialize_keeps entityId instance st) as (Hs & _).
  exact Hs.
Qed.

Lemma deserialize_same_objects (entityId : string) (instance : Ref) :
  keeps same_objects (deserialize entityId instance).
Proof.
  intros st. destruct (deserialize_keeps entityId instance st) as (_ & _ & _ & Hh).
  exact Hh.
Qed.

Lemma write_same_schema (l : nat) (k : string) (v : Value) :
  keeps same_schema (write l k v).
Proof. intros st. unfold write. now destruct (heap st !! l). Qed.

Lemma write_same_objects_but (l : nat) (k : string) (v : Value) :
  keeps (same_objects_but l) (write l k v).
Proof.
  intros st l' o Hne Hl'. unfold write.
  destruct (heap st !! l); [|exact Hl']. simpl.
  now rewrite list_lookup_insert_ne.
Qed.

#[local] Instance same_issued_preorder : PreOrder same_issued.
Proof.
  split.
  - now intros st.
  - intros a b c Hab Hbc. unfold same_issued in *. congruence.
Qed.

Lemma deserialize_same_issued (entityId : string) (instance : Ref) :
  keeps same_issued (deserialize entityId instance).
Proof.
  intros st. destruct (deserialize_keeps entityId instance st) as (_ & _ & Hi & _).
  exact Hi.
Qed.

(** Decomposes an operation into the steps above. *)
Ltac frame R :=
  repeat first
    [ progress cbv beta zeta
    | apply (keeps_errorWrapper R)
    | apply (keeps_ret R)
    | apply (keeps_throw R)
    | apply (keeps_lift R)
    | apply (keeps_get_schema R)
    | apply (keeps_read R)
    | apply query_same_schema
    | apply query_same_objects
    | apply deserialize_same_schema
    | apply deserialize_same_objects
    | apply deserialize_same_issued
    | apply write_same_schema
    | apply (keeps_mapM R); intros ?
    | apply (keeps_bind R); [|intros ?]
    | match goal with
      | |- keeps _ (match ?x with _ => _ end) => destruct x
      end ].

Lemma getEntities_same_schema (entityId : string) (filter : option EntityFilter) :
  keeps same_schema (getEntities entityId filter).
Proof. unfold getEntities. frame same_schema. Qed.

Lemma getEntities_same_objects (entityId : string) (filter : option EntityFilter) :
  keeps same_objects (getEntities entityId filter).
Proof. unfold getEntities. frame same_objects. Qed.

Lemma teardown_same_schema : keeps same_schema teardown.
Proof. intros st. apply teardown_effect. Qed.

Lemma teardown_same_objects : keeps same_objects teardown.
Proof.
  intros st. destruct (teardown_effect st) as (_ & _ & Hh). exact Hh.
Qed.

(** X4: no operation other than [load] changes the schema of the store,
    whatever its arguments and whatever the pool answers. *)
Theorem schema_written_by_load_only :
  (∀ entityId id, keeps same_schema (getEntity entityId id))
  ∧ (∀ entityId id instance, keeps same_schema (insertEntity entityId id instance))
  ∧ (∀ entityId id instance, keeps same_schema (updateEntity entityId id instance))
  ∧ (∀ entityId id instance, keeps same_schema (upsertEntity entityId id instance))
  ∧ (∀ entityId id, keeps same_schema (deleteEntity entityId id))
  ∧ (∀ entityId filter, keeps same_schema (getEntities entityId filter))
  ∧ (∀ entityId instanceId derivedFieldName,
        keeps same_schema
          (getEntityDerivedField entityId instanceId derivedFieldName))
  ∧ keeps same_schema teardown.
Proof.
  repeat split; intros.
  - unfold getEntity. frame same_schema.
  - unfold insertEntity. frame same_schema.
  - unfold updateEntity. frame same_schema.
  - unfold upsertEntity. frame same_schema.
  - unfold deleteEntity. frame same_schema.
  - apply getEntities_same_schema.
  - unfold getEntityDerivedField. frame same_schema;
      apply getEntities_same_schema.
  - apply teardown_same_schema.
Qed.

(** X5: [getEntity], [updateEntity], [deleteEntity], [getEntities],
    [getEntityDerivedField] and [teardown] change no object that exists when
    they are called, the instance handed to [updateEntity] included; they
    only add objects (the rows of the answers and their decoded copies). *)
Theorem reads_and_update_change_no_object :
  (∀ entityId id, keeps same_objects (getEntity entityId id))
  ∧ (∀ entityId id instance, keeps same_objects (updateEntity entityId id instance))
  ∧ (∀ entityId id, keeps same_objects (deleteEntity entityId id))
  ∧ (∀ entityId filter, keeps same_objects (getEntities entityId filter))
  ∧ (∀ entityId instanceId derivedFieldName,
        keeps same_objects
          (getEntityDerivedField entityId instanceId derivedFieldName))
  ∧ keeps same_objects teardown.
Proof.
  repeat split; intros.
  - unfold getEntity. frame same_objects.
  - unfold updateEntity. frame same_objects.
  - unfold deleteEntity. frame same_objects.
  - apply getEntities_same_objects.
  - unfold getEntityDerivedField. frame same_objects;
      apply getEntities_same_objects.
  - apply teardown_same_objects.
Qed.

Lemma forced_id_stays {A} (rest : M A) (id : string) (instance : nat)
    (inst : Obj) (st : State) :
  keeps same_objects rest →
  heap st !! instance = Some inst →
  let st' := snd ((write instance "id" (VString id) ;; rest) st) in
  heap st' !! instance = Some (obj_set "id" (VString id) inst)
  ∧ same_objects_but instance st st'.
Proof.
  intros Hrest Hinst. cbv zeta.
  pose proof (lookup_lt_Some _ _ _ Hinst) as Hlt.
  set (st1 := set_heap (<[instance := obj_set "id" (VString id) inst]> (heap st)) st).
  assert (Hwrite : write instance "id" (VString id) st = (Ok tt, st1)).
  { unfold write. now rewrite Hinst. }
  rewrite (bind_ok _ _ _ _ _ Hwrite). split.
  - apply Hrest. simpl. now apply list_lookup_insert_eq.
  - intros l o Hne Hl. apply Hrest. simpl.
    now rewrite list_lookup_insert_ne.
Qed.

(** X6: on a store with a schema, [insertEntity] and [upsertEntity] leave
    the [id] argument in the [id] of the caller's instance whatever happens
    next, also when the pool rejects the statement or the row does not
    decode; the other properties of the instance and all other objects are
    unchanged. *)
Theorem insert_and_upsert_force_the_instance_id (st : State) (sch : Schema)
    (entityId id : string) (instance : nat) (inst : Obj) :
  schema st = Some sch →
  heap st !! instance = Some inst →
  (let st' := snd (insertEntity entityId id instance st) in
   heap st' !! instance = Some (obj_set "id" (VString id) inst)
   ∧ same_objects_but instance st st')
  ∧ (let st' := snd (upsertEntity entityId id instance st) in
     heap st' !! instance = Some (obj_set "id" (VString id) inst)
     ∧ same_objects_but instance st st').
Proof.
  intros Hs Hinst. split.
  - unfold insertEntity. rewrite (errorWrapper_initialized _ st sch Hs).
    apply forced_id_stays; [|exact Hinst]. frame same_objects.
  - unfold upsertEntity. rewrite (errorWrapper_initialized _ st sch Hs).
    apply forced_id_stays; [|exact Hinst]. frame same_objects.
Qed.

(** ** What the single-row operations send *)

Lemma sends_once {A} (statement : string) (values : list Value)
    (k : list nat * nat → M A) (st : State) :
  (∀ res, keeps same_issued (k res)) →
  issued (snd ((do res <- query statement values; k res) st))
  = issued st ++ [(statement, values)].
Proof.
  intros Hk. rewrite <- query_issued. unfold bind.
  destruct (query statement values st) as [[res|e] st1]; [|reflexivity].
  apply Hk.
Qed.

Lemma write_then_read (instance : nat) (id : string) (inst : Obj) (st : State) :
  heap st !! instance = Some inst →
  let st1 :=
    set_heap (<[instance := obj_set "id" (VString id) inst]> (heap st)) st in
  write instance "id" (VString id) st = (Ok tt, st1)
  ∧ read instance st1 = (Ok (obj_set "id" (VString id) inst), st1).
Proof.
  intros Hinst. cbv zeta. pose proof (lookup_lt_Some _ _ _ Hinst) as Hlt.
  split.
  - unfold write. now rewrite Hinst.
  - unfold read. simpl. now rewrite list_lookup_insert_eq.
Qed.

(** X7: on a store with a schema, each operation on one row sends exactly
    one statement, whatever the pool answers and whether or not the entity is
    in the schema, and every value goes into the list of bound values:
    [getEntity] and [deleteEntity] bind the [id]; [insertEntity] binds the
    values of the encoded instance, its [id] forced; [updateEntity] binds the
    values of the pairs other than [id] and then the [id]; [upsertEntity]
    binds the values of the insert and then those of the update. *)
Theorem single_row_operations_bind_values (st : State) (sch : Schema)
    (entityId id : string) (instance : nat) (inst : Obj) :
  schema st = Some sch →
  heap st !! instance = Some inst →
  let forced := getColumnValuePairs (obj_set "id" (VString id) inst) in
  let given := getColumnValuePairs inst in
  issued (snd (getEntity entityId id st))
  = issued st ++ [(selectStatement entityId, [VString id])]
  ∧ issued (snd (deleteEntity entityId id st))
    = issued st ++ [(deleteStatement entityId, [VString id])]
  ∧ issued (snd (insertEntity entityId id instance st))
    = issued st ++ [(insertStatement entityId forced, map value forced)]
  ∧ issued (snd (updateEntity entityId id instance st))
    = issued st ++ [(updateStatement entityId (updatePairs_of given),
                     map value (updatePairs_of given) ++ [VString id])]
  ∧ issued (snd (upsertEntity entityId id instance st))
    = issued st ++ [(upsertStatement entityId forced,
                     map value forced ++ map value (updatePairs_of forced))].
Proof.
  intros Hs Hinst. cbv zeta.
  destruct (write_then_read instance id inst st Hinst) as [Hwrite Hread].
  repeat split.
  - unfold getEntity. rewrite (errorWrapper_initialized _ st sch Hs).
    apply sends_once. intros res. frame same_issued.
  - unfold deleteEntity. rewrite (errorWrapper_initialized _ st sch Hs).
    apply sends_once. intros res. frame same_issued.
  - unfold insertEntity. rewrite (errorWrapper_initialized _ st sch Hs).
    rewrite (bind_ok _ _ _ _ _ Hwrite), (bind_ok _ _ _ _ _ Hread). cbv zeta.
    rewrite sends_once by (intros res; apply deserialize_same_issued).
    reflexivity.
  - unfold updateEntity. rewrite (errorWrapper_initialized _ st sch Hs).
    rewrite (bind_ok (read instance) _ st st _ eq_refl). rewrite Hinst.
    cbv zeta. apply (sends_once _ _ _ _). intros res.
    apply deserialize_same_issued.
  - unfold upsertEntity. rewrite (errorWrapper_initialized _ st sch Hs).
    rewrite (bind_ok _ _ _ _ _ Hwrite), (bind_ok _ _ _ _ _ Hread). cbv zeta.
    rewrite sends_once by (intros res; apply deserialize_same_issued).
    reflexivity.
Qed.

End Frames.

Section Rows.

Context `{Env}.

(** ** Reading one row *)

Lemma deserialize_unknown_entity (st : State) (sch : Schema)
    (entityId : string) (instance : Ref) :
  schema st = Some sch →
  List.find (fun e => String.eqb (entity_id e) entityId) (entities sch) = None →
  deserialize entityId instance st = (Throw (EntityNotFoundForId entityId), st).
Proof.
  intros Hs Hfind. unfold deserialize.
  rewrite (bind_ok get_schema _ st st (schema st) eq_refl).
  rewrite Hs. unfold find_entity. now rewrite Hfind.
Qed.

(** X8: when the pool reports no row, [getEntity] returns [null] without
    decoding anything, so also for an entity that the schema does not have;
    the rows of the answer, if any, are not looked at. *)
Theorem getEntity_null_without_row (st : State) (sch : Schema)
    (entityId id : string) (res : QueryResult) (db : DB) :
  schema st = Some sch →
  pool_query (selectStatement entityId) [VString id] (pool st) = (Ok res, db) →
  rowCount res = 0%nat →
  getEntity entityId id st
  = (Ok None,
     after_query (selectStatement entityId) [VString id] (rows res) db st).
Proof.
  intros Hs Hq Hcount. unfold getEntity.
  rewrite (errorWrapper_initialized _ st sch Hs). cbv zeta.
  rewrite (bind_ok _ _ _ _ _ (query_answered _ _ _ _ _ Hq)).
  now rewrite Hcount.
Qed.

(** X9: when the pool reports rows and the answer has a first row,
    [getEntity] returns a new object that holds the decoded first row, as
    soon as the entity is in the schema, the values of the list-kind fields
    of that row parse and its properties that match no field have names that
    [Object.prototype] does not have; further rows are ignored. *)
Theorem getEntity_decodes_first_row (st : State) (sch : Schema)
    (entity : Entity) (entityId id : string) (row : Obj) (more : list Obj)
    (n : nat) (db : DB) :
  schema st = Some sch →
  List.find (fun e => String.eqb (entity_id e) entityId) (entities sch)
  = Some entity →
  pool_query (selectStatement entityId) [VString id] (pool st)
  = (Ok {| rows := row :: more; rowCount := S n |}, db) →
  NoDup (keys row) →
  (∀ k v field,
      In (k, v) row →
      entity_fieldByName entity !! k = Some field →
      String.eqb (field_baseGqlType field) "Boolean" = false →
      FieldKind_eqb (field_kind field) LIST = true →
      ∃ parsed, JSON_parse v = Ok parsed) →
  own_names_only entity row →
  ∃ d st' row',
    getEntity entityId id st = (Ok (Some d), st')
    ∧ heap st !! d = None
    ∧ heap st' !! d = Some row'
    ∧ map_throwing (decoded entity) row = Ok row'.
Proof.
  intros Hs Hfind Hq Hnd Hparse Hown.
  set (st1 := after_query (selectStatement entityId) [VString id]
                (row :: more) db st).
  assert (Hl : heap st1 !! length (heap st) = Some row).
  { simpl. now rewrite list_lookup_middle. }
  pose proof (deserialize_row st1 sch entity entityId _ row Hs Hfind Hl Hnd)
    as Hrow.
  destruct (map_throwing_decoded_total entity row Hparse Hown) as [row' Hm].
  rewrite Hm in Hrow.
  exists (length (heap st1)), (set_heap (heap st1 ++ [row']) st1), row'.
  split; [|split; [|split]].
  - unfold getEntity. rewrite (errorWrapper_initialized _ st sch Hs). cbv zeta.
    rewrite (bind_ok _ _ _ _ _ (query_answered _ _ _ _ _ Hq)).
    cbn [rows rowCount Nat.eqb length seq row_at lookup list_lookup].
    now rewrite (bind_ok _ _ _ _ _ Hrow).
  - apply lookup_ge_None. simpl. rewrite length_app. lia.
  - simpl. now rewrite list_lookup_middle.
  - exact Hm.
Qed.

(** X10: on a store with a schema, [deleteEntity] returns whether the pool
    reports exactly one row, so [false] for no row and for several; it does
    not look the entity up in the schema. *)
Theorem deleteEntity_reports_one_row (st : State) (sch : Schema)
    (entityId id : string) (res : QueryResult) (db : DB) :
  schema st = Some sch →
  pool_query (deleteStatement entityId) [VString id] (pool st) = (Ok res, db) →
  deleteEntity entityId id st
  = (Ok (Nat.eqb (rowCount res) 1),
     after_query (deleteStatement entityId) [VString id] (rows res) db st).
Proof.
  intros Hs Hq. unfold deleteEntity.
  rewrite (errorWrapper_initialized _ st sch Hs). cbv zeta.
  now rewrite (bind_ok _ _ _ _ _ (query_answered _ _ _ _ _ Hq)).
Qed.

(** ** Writes to an entity that the schema does not have *)

Lemma query_then_unknown_entity (statement : string) (values : list Value)
    (st : State) (sch : Schema) (entityId : string) (res : QueryResult)
    (db : DB) :
  schema st = Some sch →
  List.find (fun e => String.eqb (entity_id e) entityId) (entities sch) = None →
  pool_query statement values (pool st) = (Ok res, db) →
  (do res <- query statement values;
   deserialize entityId (row_at (fst res) 0)) st
  = (Throw (EntityNotFoundForId entityId),
     after_query statement values (rows res) db st).
Proof.
  intros Hs Hfind Hq.
  rewrite (bind_ok _ _ _ _ _ (query_answered _ _ _ _ _ Hq)).
  now apply (deserialize_unknown_entity _ sch).
Qed.

(** X11: the entity is looked up in the schema only when the answer is
    decoded.  For an entity that the schema does not have, [insertEntity],
    [updateEntity] and [upsertEntity] first send their statement, and when
    the pool accepts it they fail with the error for an entity that is not
    found, the database being in the state that the statement left. *)
Theorem writes_precede_the_entity_check (st : State) (sch : Schema)
    (entityId id : string) (instance : nat) (inst : Obj) :
  schema st = Some sch →
  List.find (fun e => String.eqb (entity_id e) entityId) (entities sch) = None →
  heap st !! instance = Some inst →
  let forced := getColumnValuePairs (obj_set "id" (VString id) inst) in
  let given := getColumnValuePairs inst in
  (∀ res db,
      pool_query (insertStatement entityId forced) (map value forced) (pool st)
      = (Ok res, db) →
      fst (insertEntity entityId id instance st)
      = Throw (EntityNotFoundForId entityId)
      ∧ pool (snd (insertEntity entityId id instance st)) = db)
  ∧ (∀ res db,
        pool_query (updateStatement entityId (updatePairs_of given))
          (map value (updatePairs_of given) ++ [VString id]) (pool st)
        = (Ok res, db) →
        fst (updateEntity entityId id instance st)
        = Throw (EntityNotFoundForId entityId)
        ∧ pool (snd (updateEntity entityId id instance st)) = db)
  ∧ (∀ res db,
        pool_query (upsertStatement entityId forced)
          (map value forced ++ map value (updatePairs_of forced)) (pool st)
        = (Ok res, db) →
        fst (upsertEntity entityId id instance st)
        = Throw (EntityNotFoundForId entityId)
        ∧ pool (snd (upsertEntity entityId id instance st)) = db).
Proof.
  intros Hs Hfind Hinst. cbv zeta.
  pose proof (lookup_lt_Some _ _ _ Hinst) as Hlt.
  set (st1 := set_heap (<[instance := obj_set "id" (VString id) inst]> (heap st)) st).
  assert (Hwrite : write instance "id" (VString id) st = (Ok tt, st1)).
  { unfold write. now rewrite Hinst. }
  assert (Hread : read instance st1
                  = (Ok (obj_set "id" (VString id) inst), st1)).
  { unfold read. simpl. now rewrite list_lookup_insert_eq. }
  split; [|split]; intros res db Hq.
  - unfold insertEntity. rewrite (errorWrapper_initialized _ st sch Hs).
    rewrite (bind_ok _ _ _ _ _ Hwrite), (bind_ok _ _ _ _ _ Hread). cbv zeta.
    pose proof (query_then_unknown_entity _ _ st1 sch entityId res db Hs Hfind Hq)
      as Hx.
    split; [exact (f_equal fst Hx) | exact (f_equal (fun r => pool (snd r)) Hx)].
  - unfold updateEntity. rewrite (errorWrapper_initialized _ st sch Hs).
    rewrite (bind_ok (read instance) _ st st _ eq_refl). rewrite Hinst.
    cbv zeta.
    pose proof (query_then_unknown_entity _ _ st sch entityId res db Hs Hfind Hq)
      as Hx.
    split; [exact (f_equal fst Hx) | exact (f_equal (fun r => pool (snd r)) Hx)].
  - unfold upsertEntity. rewrite (errorWrapper_initialized _ st sch Hs).
    rewrite (bind_ok _ _ _ _ _ Hwrite), (bind_ok _ _ _ _ _ Hread). cbv zeta.
    pose proof (query_then_unknown_entity _ _ st1 sch entityId res db Hs Hfind Hq)
      as Hx.
    split; [exact (f_equal fst Hx) | exact (f_equal (fun r => pool (snd r)) Hx)].
Qed.

(** ** Upsert *)

(** X12: [upsertEntity] forces the [id] like [insertEntity].  When the
    encoder pairs the column [id] with the [id] of the instance, the pool
    answers the statement with the stored row, which holds the values bound
    for the insert, and that row decodes (with the names of its properties
    that match no field being none that [Object.prototype] has), the call
    returns the decoded stored row, whose [id] is the [id] argument; the [id]
    is not among the pairs of the update. *)
Theorem upsertEntity_forces_id (st : State) (sch : Schema) (entity : Entity)
    (entityId id : string) (instance : nat) (inst stored : Obj)
    (more : list Obj) (n : nat) (db : DB) :
  schema st = Some sch →
  List.find (fun e => String.eqb (entity_id e) entityId) (entities sch)
  = Some entity →
  heap st !! instance = Some inst →
  (∀ o s, obj_get "id" o = Some (VString s) →
          In {| column := "id"; value := VString s |} (getColumnValuePairs o)) →
  (let pairs := getColumnValuePairs (obj_set "id" (VString id) inst) in
   pool_query (upsertStatement entityId pairs)
     (map value pairs ++ map value (updatePairs_of pairs)) (pool st)
   = (Ok {| rows := stored :: more; rowCount := n |}, db)
   ∧ ∀ p, In p pairs → obj_get (column p) stored = Some (value p)) →
  NoDup (keys stored) →
  (∀ k v field,
      In (k, v) stored →
      entity_fieldByName entity !! k = Some field →
      String.eqb (field_baseGqlType field) "Boolean" = false →
      FieldKind_eqb (field_kind field) LIST = true →
      ∃ parsed, JSON_parse v = Ok parsed) →
  own_names_only entity stored →
  (∀ field,
      entity_fieldByName entity !! "id" = Some field →
      String.eqb (field_baseGqlType field) "Boolean" = false
      ∧ FieldKind_eqb (field_kind field) LIST = false) →
  ∃ d st' row',
    upsertEntity entityId id instance st = (Ok d, st')
    ∧ heap st' !! d = Some row'
    ∧ map_throwing (decoded entity) stored = Ok row'
    ∧ obj_get "id" row' = Some (VString id)
    ∧ ∀ p, In p (updatePairs_of
                   (getColumnValuePairs (obj_set "id" (VString id) inst))) →
           column p ≠ "id".
Proof.
  cbv zeta. intros Hs Hfind Hinst Hpairs [Hq Hstored] Hnd Hparse Hown Hplain.
  set (forced := obj_set "id" (VString id) inst) in *.
  set (pairs := getColumnValuePairs forced) in *.
  pose proof (lookup_lt_Some _ _ _ Hinst) as Hlt.
  set (st1 := set_heap (<[instance := forced]> (heap st)) st).
  assert (Hwrite : write instance "id" (VString id) st = (Ok tt, st1)).
  { unfold write. now rewrite Hinst. }
  assert (Hread : read instance st1 = (Ok forced, st1)).
  { unfold read. simpl. now rewrite list_lookup_insert_eq. }
  set (st2 := after_query (upsertStatement entityId pairs)
                (map value pairs ++ map value (updatePairs_of pairs))
                (stored :: more) db st1).
  assert (Hl : heap st2 !! length (heap st1) = Some stored).
  { simpl. now rewrite list_lookup_middle. }
  pose proof (deserialize_row st2 sch entity entityId _ stored Hs Hfind Hl Hnd)
    as Hrow.
  destruct (map_throwing_decoded_total entity stored Hparse Hown) as [row' Hm].
  rewrite Hm in Hrow.
  assert (Hid : obj_get "id" stored = Some (VString id)).
  { apply (Hstored {| column := "id"; value := VString id |}).
    apply Hpairs. apply obj_get_set_eq. }
  destruct (map_throwing_decoded_get entity stored row' "id" _ Hm Hid)
    as (v' & Hget' & Hdec).
  assert (Hv' : v' = VString id).
  { unfold decoded in Hdec.
    destruct (entity_fieldByName entity !! "id") as [f|];
      [|change (inherited "id") with false in Hdec; now inversion Hdec].
    destruct (Hplain f eq_refl) as [Hb Hk]. rewrite Hb, Hk in Hdec.
    now inversion Hdec. }
  subst v'.
  exists (length (heap st2)), (set_heap (heap st2 ++ [row']) st2), row'.
  split; [|split; [|split; [|split]]].
  - unfold upsertEntity.
    rewrite (errorWrapper_initialized _ st sch Hs).
    rewrite (bind_ok _ _ _ _ _ Hwrite), (bind_ok _ _ _ _ _ Hread). cbv zeta.
    fold pairs.
    pose proof (query_answered _ _ _ db st1 Hq) as Hanswer.
    refine (eq_trans (bind_ok _ _ _ _ _ Hanswer) _). exact Hrow.
  - simpl. now rewrite list_lookup_middle.
  - exact Hm.
  - exact Hget'.
  - intros p Hin. unfold updatePairs_of in Hin.
    apply filter_In in Hin as [_ Hne].
    apply negb_true_iff in Hne. now apply String.eqb_neq in Hne.
Qed.

(** ** The rows of a list call *)




(** X14: the statement of a list call depends on [first], [skip],
    [orderBy] and [orderDirection] only when they are truthy: a [first] or
    [skip] of zero and an empty [orderBy] or [orderDirection] give the
    statement of the filter without them, so [first: 0] does not limit the
    rows; no filter at all gives the statement of the empty filter. *)
Theorem getEntities_statement_ignores_falsy (entityId : string)
    (filter : EntityFilter) :
  getEntities_statement entityId (Some filter)
  = getEntities_statement entityId (Some (without_falsy filter))
  ∧ getEntities_statement entityId None
    = getEntities_statement entityId (Some no_filter).
Proof.
  split; [|reflexivity].
  rewrite !getEntities_statement_clause_order.
  unfold order_clause, direction_clause, limit_clause, offset_clause,
    without_falsy.
  cbn [filter_where filter_first filter_skip filter_orderBy
         filter_orderDirection].
  destruct (truthy_string (filter_orderBy filter)) eqn:Hob;
    destruct (truthy_string (filter_orderDirection filter)) eqn:Hod;
    destruct (truthy_number (filter_first filter)) eqn:Hf;
    destruct (truthy_number (filter_skip filter)) eqn:Hsk;
    cbn [truthy_string truthy_number];
    rewrite ?Hob, ?Hod, ?Hf, ?Hsk; reflexivity.
Qed.

End Rows.

(** ** Keys and the where-clause builder *)

Lemma split_first_underscore_spec :
  ∀ key,
    match split_first_underscore key with
    | (fieldName, None) => fieldName = key ∧ has_underscore key = false
    | (fieldName, Some rest) =>
        key = fieldName +:+ "_" +:+ rest
        ∧ has_underscore fieldName = false
        ∧ has_underscore key = true
    end.
Proof.
  induction key as [|c key IH]; simpl; [now split|].
  destruct (Ascii.eqb_spec c "_"%char) as [->|Hc]; simpl.
  - now repeat split.
  - destruct (split_first_underscore key) as [fieldName [rest|]]; simpl.
    + destruct IH as (-> & Hf & Hk).
      apply Ascii.eqb_neq in Hc. rewrite ?Hc. now repeat split.
    + destruct IH as (-> & Hk).
      apply Ascii.eqb_neq in Hc. rewrite ?Hc. now split.
Qed.

(** X15: the two pieces that the compilers read off a key give the key
    back: a key without an underscore is its own field name and has the empty
    suffix, and a key with an underscore is the field name, an underscore and
    the suffix; the field name never has an underscore. *)
Theorem key_pieces_rejoin (key : string) :
  has_underscore (fieldName_of key) = false
  ∧ (if has_underscore key
     then key = fieldName_of key +:+ "_" +:+ filterType_of key
     else key = fieldName_of key ∧ filterType_of key = EmptyString).
Proof.
  unfold fieldName_of, filterType_of, split_key.
  pose proof (split_first_underscore_spec key) as Hspec.
  destruct (split_first_underscore key) as [fieldName [rest|]]; simpl.
  - destruct Hspec as (Hkey & Hf & Hk). rewrite Hk. now split.
  - destruct Hspec as (-> & Hk). rewrite Hk. now repeat split.
Qed.

Lemma buildWhereObject_step_unfold
    (whereObject : list (string * (string * Value))) (key : string)
    (value : Value) :
  buildWhereObject_step whereObject (key, value)
  = match storeCondition_at (filterType_of key) with
    | None => Throw (UnknownWhereCondition (fieldName_of key) (filterType_of key))
    | Some storeCondition =>
        Ok (obj_set (fieldName_of key) (storeCondition, value) whereObject)
    end.
Proof. reflexivity. Qed.

Lemma unknown_condition_names_key (key : string) :
  storeCondition_at (filterType_of key) = None →
  UnknownWhereCondition (fieldName_of key) (filterType_of key)
  = Error ("Invalid query: Unknown where condition: " +:+ key).
Proof.
  intros Hnone. destruct (key_pieces_rejoin key) as [_ Hkey].
  destruct (has_underscore key).
  - unfold UnknownWhereCondition. now rewrite <- Hkey.
  - destruct Hkey as [_ Hempty]. rewrite Hempty in Hnone. discriminate.
Qed.

Lemma buildWhereObject_from_app (xs ys : Obj) :
  ∀ acc,
    buildWhereObject_from acc (xs ++ ys)
    = match buildWhereObject_from acc xs with
      | Ok acc' => buildWhereObject_from acc' ys
      | Throw e => Throw e
      end.
Proof.
  induction xs as [|x xs IH]; intros acc; cbn [app buildWhereObject_from];
    [reflexivity|].
  destruct (buildWhereObject_step acc x); [apply IH | reflexivity].
Qed.

Lemma buildWhereObject_from_fails :
  ∀ (entries : Obj) acc e,
    buildWhereObject_from acc entries = Throw e →
    ∃ pre key value post,
      entries = pre ++ (key, value) :: post
      ∧ (∀ k v, In (k, v) pre →
                is_Some (storeCondition_at (filterType_of k)))
      ∧ storeCondition_at (filterType_of key) = None
      ∧ e = Error ("Invalid query: Unknown where condition: " +:+ key).
Proof.
  induction entries as [|[k v] entries IH]; intros acc e Hfail;
    cbn [buildWhereObject_from] in Hfail; [discriminate|].
  rewrite buildWhereObject_step_unfold in Hfail.
  destruct (storeCondition_at (filterType_of k)) as [c|] eqn:Hc.
  - destruct (IH _ _ Hfail) as (pre & key & value & post & -> & Hpre & Hk & ->).
    exists ((k, v) :: pre), key, value, post. repeat split; try assumption.
    intros k0 v0 [Heq|Hin]; [|now apply (Hpre k0 v0)].
    inversion Heq; subst. now rewrite Hc.
  - exists [], k, v, entries. repeat split; [intros ? ? []|exact Hc|].
    inversion Hfail. now apply unknown_condition_names_key.
Qed.

Lemma buildWhereObject_from_succeeds :
  ∀ (entries : Obj) acc,
    (∀ k v, In (k, v) entries →
            is_Some (storeCondition_at (filterType_of k))) →
    ∃ r, buildWhereObject_from acc entries = Ok r.
Proof.
  induction entries as [|[k v] entries IH]; intros acc Hknown;
    cbn [buildWhereObject_from]; [now eexists|].
  rewrite buildWhereObject_step_unfold.
  destruct (Hknown k v (or_introl eq_refl)) as [c ->].
  apply IH. intros k0 v0 Hin. apply (Hknown k0 v0). now right.
Qed.

Lemma buildWhereObject_from_known :
  ∀ (entries : Obj) acc r,
    buildWhereObject_from acc entries = Ok r →
    ∀ k v, In (k, v) entries →
           is_Some (storeCondition_at (filterType_of k)).
Proof.
  induction entries as [|[k0 v0] entries IH]; intros acc r Hr k v Hin;
    [destruct Hin|].
  cbn [buildWhereObject_from] in Hr.
  rewrite buildWhereObject_step_unfold in Hr.
  destruct (storeCondition_at (filterType_of k0)) as [c|] eqn:Hc;
    [|discriminate].
  destruct Hin as [Heq|Hin].
  - inversion Heq; subst. now rewrite Hc.
  - exact (IH _ _ Hr k v Hin).
Qed.

Lemma storeCondition_at_None (condition : string) :
  storeCondition_at condition = None
  ↔ graphqlFilterToStoreCondition !! condition = None
    ∧ inherited condition = false.
Proof.
  unfold storeCondition_at, inherited.
  destruct (graphqlFilterToStoreCondition !! condition) as [c|].
  - split; [discriminate | now intros [? _]].
  - destruct (obj_get condition Object_prototype).
    + split; [discriminate | now intros [_ ?]].
    + now split.
Qed.

(** X16: [buildWhereObject] fails exactly when some key has an operator
    suffix that the lookup in the table of conditions does not find: one
    that is neither a condition of the table nor the name of a member of
    [Object.prototype].  The error is the one of the first such key, and its
    message ends with that key as it was given. *)
Theorem buildWhereObject_fails_on_unknown_condition (where_ : Obj) :
  (∀ condition,
      storeCondition_at condition = None
      ↔ graphqlFilterToStoreCondition !! condition = None
        ∧ inherited condition = false)
  ∧ ((∃ e, buildWhereObject where_ = Throw e)
   ↔ ∃ key value,
       In (key, value) where_
       ∧ storeCondition_at (filterType_of key) = None)
  ∧ ∀ e,
      buildWhereObject where_ = Throw e →
      ∃ pre key value post,
        where_ = pre ++ (key, value) :: post
        ∧ (∀ k v, In (k, v) pre →
                  is_Some (storeCondition_at (filterType_of k)))
        ∧ storeCondition_at (filterType_of key) = None
        ∧ e = Error ("Invalid query: Unknown where condition: " +:+ key).
Proof.
  split; [exact storeCondition_at_None|].
  unfold buildWhereObject. split; [split|].
  - intros [e He].
    destruct (buildWhereObject_from_fails _ _ _ He)
      as (pre & key & value & post & -> & _ & Hk & _).
    exists key, value. split; [|exact Hk]. apply in_or_app. right. now left.
  - intros (key & value & Hin & Hk).
    destruct (buildWhereObject_from [] where_) as [r|e] eqn:Hr; [|now eexists].
    destruct (buildWhereObject_from_known _ _ _ Hr key value Hin) as [c Hc].
    congruence.
  - intros e He. exact (buildWhereObject_from_fails _ _ _ He).
Qed.

Lemma obj_set_In {V} (k : string) (v : V) (o : list (string * V)) (x : string * V) :
  In x (obj_set k v o) → x = (k, v) ∨ In x o.
Proof.
  induction o as [|[k' v'] o IH]; simpl.
  - intros [<-|[]]. now left.
  - destruct (String.eqb k' k); simpl.
    + intros [<-|Hin]; [now left | right; now right].
    + intros [<-|Hin]; [right; now left|].
      destruct (IH Hin) as [->|Hin']; [now left | right; now right].
Qed.

Lemma obj_set_NoDup {V} (k : string) (v : V) (o : list (string * V)) :
  NoDup (map fst o) → NoDup (map fst (obj_set k v o)).
Proof.
  induction o as [|[k' v'] o IH]; simpl; intros Hnd.
  - apply NoDup_singleton.
  - apply NoDup_cons in Hnd as [Hnotin Hnd].
    destruct (String.eqb_spec k' k) as [->|Hne]; simpl.
    + now apply NoDup_cons.
    + apply NoDup_cons. split; [|now apply IH].
      intros Hin. apply list_elem_of_In, in_map_iff in Hin as ([k0 v0] & Hk0 & Hin).
      simpl in Hk0. subst k0.
      destruct (obj_set_In _ _ _ _ Hin) as [Heq|Hin'].
      * inversion Heq. congruence.
      * apply Hnotin, list_elem_of_In, in_map_iff. now exists (k', v0).
Qed.

Lemma buildWhereObject_from_result :
  ∀ (entries : Obj) acc r,
    buildWhereObject_from acc entries = Ok r →
    NoDup (map fst acc) →
    NoDup (map fst r)
    ∧ ∀ x, In x r →
           In x acc
           ∨ ∃ key value storeCondition,
               x = (fieldName_of key, (storeCondition, value))
               ∧ In (key, value) entries
               ∧ storeCondition_at (filterType_of key)
                 = Some storeCondition.
Proof.
  induction entries as [|[k v] entries IH]; intros acc r Hr Hnd;
    cbn [buildWhereObject_from] in Hr.
  - inversion Hr; subst r. split; [exact Hnd | now left].
  - rewrite buildWhereObject_step_unfold in Hr.
    destruct (storeCondition_at (filterType_of k)) as [c|] eqn:Hc;
      [|discriminate].
    destruct (IH _ _ Hr (obj_set_NoDup _ _ _ Hnd)) as [Hnd' Hfrom].
    split; [exact Hnd'|].
    intros x Hx. destruct (Hfrom x Hx) as [Hin|(key & value & c' & -> & Hin & Hc')].
    + destruct (obj_set_In _ _ _ _ Hin) as [->|Hacc]; [|now left].
      right. exists k, v, c. repeat split; [now left | exact Hc].
    + right. exists key, value, c'. repeat split; [now right | exact Hc'].
Qed.

Lemma buildWhereObject_from_other_fields (fieldName : string) :
  ∀ (entries : Obj) acc r,
    buildWhereObject_from acc entries = Ok r →
    (∀ k v, In (k, v) entries → fieldName_of k ≠ fieldName) →
    obj_get fieldName r = obj_get fieldName acc.
Proof.
  induction entries as [|[k v] entries IH]; intros acc r Hr Hother;
    cbn [buildWhereObject_from] in Hr.
  - now inversion Hr.
  - rewrite buildWhereObject_step_unfold in Hr.
    destruct (storeCondition_at (filterType_of k)) as [c|];
      [|discriminate].
    rewrite (IH _ _ Hr); [|intros k0 v0 Hin; apply (Hother k0 v0); now right].
    apply obj_get_set_ne. apply (Hother k v). now left.
Qed.

(** X17: a where-object that [buildWhereObject] returns has at most one
    condition per field; each condition is what the lookup in the table of
    conditions finds for the suffix of an entry of [where] (a condition of
    the table, or a member of [Object.prototype]), with the value of that
    entry, under the field name read off its key; and no field name of the
    result has an underscore. *)
Theorem buildWhereObject_result (where_ : Obj)
    (whereObject : list (string * (string * Value))) :
  buildWhereObject where_ = Ok whereObject →
  NoDup (map fst whereObject)
  ∧ ∀ fieldName storeCondition value,
      In (fieldName, (storeCondition, value)) whereObject →
      has_underscore fieldName = false
      ∧ ∃ key,
          In (key, value) where_
          ∧ fieldName_of key = fieldName
          ∧ storeCondition_at (filterType_of key)
            = Some storeCondition.
Proof.
  unfold buildWhereObject. intros Hr.
  destruct (buildWhereObject_from_result where_ [] whereObject Hr (NoDup_nil_2))
    as [Hnd Hfrom].
  split; [exact Hnd|].
  intros fieldName storeCondition value Hin.
  destruct (Hfrom _ Hin) as [[]|(key & v & c & Heq & Hkey & Hc)].
  inversion Heq; subst. split.
  - apply key_pieces_rejoin.
  - now exists key.
Qed.

(** X18: of the entries of [where] that have the same field name, only the
    last one is in the where-object: the condition under a field name is that
    of the last entry with that field name, and the conditions of the earlier
    ones are overwritten. *)
Theorem buildWhereObject_last_entry_wins (pre post : Obj) (key : string)
    (value : Value) (whereObject : list (string * (string * Value))) :
  buildWhereObject (pre ++ (key, value) :: post) = Ok whereObject →
  (∀ k v, In (k, v) post → fieldName_of k ≠ fieldName_of key) →
  ∃ storeCondition,
    storeCondition_at (filterType_of key) = Some storeCondition
    ∧ obj_get (fieldName_of key) whereObject = Some (storeCondition, value).
Proof.
  unfold buildWhereObject. intros Hr Hlast.
  rewrite buildWhereObject_from_app in Hr.
  destruct (buildWhereObject_from [] pre) as [acc|]; [|discriminate].
  cbn [buildWhereObject_from] in Hr.
  rewrite buildWhereObject_step_unfold in Hr.
  destruct (storeCondition_at (filterType_of key)) as [c|];
    [|discriminate].
  exists c. split; [reflexivity|].
  rewrite (buildWhereObject_from_other_fields _ _ _ _ Hr Hlast).
  apply obj_get_set_eq.
Qed.

(** ** The filter fields of the plural field *)

Lemma append_empty_r (s : string) : s +:+ EmptyString = s.
Proof.
  induction s as [|c s IH]; [reflexivity|].
  change (String c (s +:+ EmptyString) = String c s). now f_equal.
Qed.

Lemma append_assoc (a b c : string) : (a +:+ b) +:+ c = a +:+ b +:+ c.
Proof.
  induction a as [|x a IH]; [reflexivity|].
  change (String x ((a +:+ b) +:+ c) = String x (a +:+ b +:+ c)). now f_equal.
Qed.

Lemma split_key_before_underscore (base rest : string) :
  has_underscore base = false →
  split_key (base +:+ String "_"%char rest) = [base; rest; EmptyString].
Proof. exact (split_key_at_underscore base rest). Qed.

Lemma tsTypeToGqlField_no_underscore (key : string) :
  has_underscore key = false → has_underscore (tsTypeToGqlField key) = false.
Proof.
  intros Hu. unfold tsTypeToGqlField.
  now destruct (String.eqb key "bigint").
Qed.

(** A field name followed by one of the suffixes of [operators] is read
    back as that field name with a known condition. *)
Lemma suffixed_name_is_known (base suffix : string) :
  has_underscore base = false →
  In suffix operators_all →
  fieldName_of (base +:+ suffix) = base
  ∧ is_Some (storeCondition_at (filterType_of (base +:+ suffix))).
Proof.
  intros Hu Hin. unfold fieldName_of, filterType_of.
  cbn [operators_all operators_universal operators_singular operators_plural
         operators_numeric operators_string app In] in Hin.
  destruct Hin as [<-|Hin].
  { rewrite append_empty_r, (split_key_whole base Hu). simpl.
    split; [reflexivity | now eexists]. }
  repeat (destruct Hin as [<-|Hin];
          [rewrite (split_key_before_underscore base _ Hu); simpl;
           split; [reflexivity | now eexists] |]).
  contradiction.
Qed.

Section RegisteredFilters.

Variable G : Type.
Variable tsTypeToGqlScalar : Scalar → G.

Lemma register_In (name : string → string) (type : FilterFieldType G)
    (x : string * FilterFieldType G) :
  ∀ suffixes filterFields,
    In x (register G name type suffixes filterFields) →
    In x filterFields ∨ ∃ suffix, In suffix suffixes ∧ fst x = name suffix.
Proof.
  unfold register.
  induction suffixes as [|suffix suffixes IH]; intros filterFields Hin;
    cbn [fold_left] in Hin; [now left|].
  destruct (IH _ Hin) as [Hin'|(suffix' & Hs & Hx)].
  - destruct (obj_set_In _ _ _ _ Hin') as [->|Hold]; [|now left].
    right. exists suffix. split; [now left | reflexivity].
  - right. exists suffix'. split; [now right | exact Hx].
Qed.

Lemma filterFields_column_In (key : string) (col : Column)
    (x : string * FilterFieldType G) (filterFields : list (string * FilterFieldType G)) :
  In x (filterFields_column G tsTypeToGqlScalar filterFields (key, col)) →
  In x filterFields
  ∨ ∃ suffix,
      In suffix operators_all
      ∧ (fst x = tsTypeToGqlField key +:+ suffix ∨ fst x = key +:+ suffix).
Proof.
  assert (Hsub : ∀ suffixes suffix,
             In suffix suffixes →
             (suffixes = operators_universal ∨ suffixes = operators_singular
              ∨ suffixes = operators_plural ∨ suffixes = operators_numeric
              ∨ suffixes = operators_string) →
             In suffix operators_all).
  { intros suffixes suffix Hin Hcase. unfold operators_all.
    rewrite !in_app_iff.
    destruct Hcase as [->|[->|[->|[->| ->]]]]; tauto. }
  assert (Hreg : ∀ name type suffixes ff,
             In x (register G name type suffixes ff) →
             (suffixes = operators_universal ∨ suffixes = operators_singular
              ∨ suffixes = operators_plural ∨ suffixes = operators_numeric
              ∨ suffixes = operators_string) →
             (∀ suffix, name suffix = tsTypeToGqlField key +:+ suffix
                        ∨ name suffix = key +:+ suffix) →
             In x ff
             ∨ ∃ suffix,
                 In suffix operators_all
                 ∧ (fst x = tsTypeToGqlField key +:+ suffix
                    ∨ fst x = key +:+ suffix)).
  { intros name type suffixes ff Hin Hcase Hname.
    destruct (register_In name type x suffixes ff Hin) as [Hold|(suffix & Hs & Hx)];
      [now left|].
    right. exists suffix. split; [exact (Hsub _ _ Hs Hcase)|].
    rewrite Hx. apply Hname. }
  unfold filterFields_column. intros Hin.
  destruct (column_list col); cbn [negb] in Hin.
  - apply Hreg in Hin; [|tauto|now left].
    destruct Hin as [Hin|Hnew]; [|now right].
    apply Hreg in Hin; [|tauto|now left]. exact Hin.
  - destruct (is_text (column_type col)).
    + apply Hreg in Hin; [|tauto|now right].
      destruct Hin as [Hin|Hnew]; [|now right].
      destruct (is_numeric (column_type col)).
      * apply Hreg in Hin; [|tauto|now left].
        destruct Hin as [Hin|Hnew]; [|now right].
        apply Hreg in Hin; [|tauto|now left].
        destruct Hin as [Hin|Hnew]; [|now right].
        apply Hreg in Hin; [|tauto|now left]. exact Hin.
      * apply Hreg in Hin; [|tauto|now left].
        destruct Hin as [Hin|Hnew]; [|now right].
        apply Hreg in Hin; [|tauto|now left]. exact Hin.
    + destruct (is_numeric (column_type col)).
      * apply Hreg in Hin; [|tauto|now left].
        destruct Hin as [Hin|Hnew]; [|now right].
        apply Hreg in Hin; [|tauto|now left].
        destruct Hin as [Hin|Hnew]; [|now right].
        apply Hreg in Hin; [|tauto|now left]. exact Hin.
      * apply Hreg in Hin; [|tauto|now left].
        destruct Hin as [Hin|Hnew]; [|now right].
        apply Hreg in Hin; [|tauto|now left]. exact Hin.
Qed.

Lemma filterFields_In (x : string * FilterFieldType G) :
  ∀ columns filterFields,
    In x (fold_left (filterFields_column G tsTypeToGqlScalar) columns filterFields) →
    In x filterFields
    ∨ ∃ key col suffix,
        In (key, col) columns
        ∧ In suffix operators_all
        ∧ (fst x = tsTypeToGqlField key +:+ suffix ∨ fst x = key +:+ suffix).
Proof.
  induction columns as [|[key col] columns IH]; intros filterFields Hin;
    cbn [fold_left] in Hin; [now left|].
  destruct (IH _ Hin) as [Hin'|(key' & col' & suffix & Hc & Hs & Hx)].
  - destruct (filterFields_column_In key col x filterFields Hin')
      as [Hold|(suffix & Hs & Hx)]; [now left|].
    right. exists key, col, suffix. repeat split; [now left | exact Hs | exact Hx].
  - right. exists key', col', suffix. repeat split; [now right | exact Hs | exact Hx].
Qed.

End RegisteredFilters.

Section PluralFieldProperties.

Variable G : Type.
Variable tsTypeToGqlScalar : Scalar → G.
Variable Found : Type.
Variable findMany : FindManyArgs → Result Found.

Lemma registered_name_is_known (entity : TableEntity) (name : string)
    (type : FilterFieldType G) :
  (∀ key col, In (key, col) (table_columns entity) → has_underscore key = false) →
  In (name, type) (filterFields_of G tsTypeToGqlScalar entity) →
  is_Some (storeCondition_at (filterType_of name))
  ∧ ∃ key col,
      In (key, col) (table_columns entity)
      ∧ (fieldName_of name = tsTypeToGqlField key ∨ fieldName_of name = key).
Proof.
  intros Hcols Hin. unfold filterFields_of in Hin.
  destruct (filterFields_In G tsTypeToGqlScalar _ _ _ Hin)
    as [[]|(key & col & suffix & Hc & Hs & Hname)].
  pose proof (Hcols key col Hc) as Hu. simpl in Hname.
  destruct Hname as [-> | ->].
  - destruct (suffixed_name_is_known (tsTypeToGqlField key) suffix
                (tsTypeToGqlField_no_underscore key Hu) Hs) as [Hf Hknown].
    split; [exact Hknown|]. exists key, col. split; [exact Hc | now left].
  - destruct (suffixed_name_is_known key suffix Hu Hs) as [Hf Hknown].
    split; [exact Hknown|]. exists key, col. split; [exact Hc | now right].
Qed.

(** X19: for an entity whose column names have no underscore, every
    [where] whose keys are filter fields that [buildPluralField] registers is
    accepted: [buildWhereObject] returns a where-object, each of its field
    names is the name of a column (or [bigInt], for a column named [bigint]),
    and the resolver calls [store.findMany] with it. *)
Theorem registered_filters_are_accepted (entity : TableEntity) (args : PluralArgs)
    (where_ : Obj) :
  (∀ key col, In (key, col) (table_columns entity) → has_underscore key = false) →
  (∀ k v, In (k, v) where_ →
          ∃ type, In (k, type) (filterFields_of G tsTypeToGqlScalar entity)) →
  args_where args = Some where_ →
  ∃ whereObject findManyArgs,
    buildWhereObject where_ = Ok whereObject
    ∧ (∀ fieldName condition,
          In (fieldName, condition) whereObject →
          ∃ key col,
            In (key, col) (table_columns entity)
            ∧ (fieldName = tsTypeToGqlField key ∨ fieldName = key))
    ∧ resolver Found findMany entity args = findMany findManyArgs
    ∧ findMany_where findManyArgs = Some whereObject
    ∧ findMany_modelName findManyArgs = table_name entity.
Proof.
  intros Hcols Hkeys Hwhere.
  assert (Hknown : ∀ k v, In (k, v) where_ →
             is_Some (storeCondition_at (filterType_of k))).
  { intros k v Hin. destruct (Hkeys k v Hin) as [type Htype].
    now apply (registered_name_is_known entity k type Hcols). }
  destruct (buildWhereObject_from_succeeds where_ [] Hknown) as [whereObject Hr].
  exists whereObject. eexists. split; [exact Hr|]. split; [|split; [|split]].
  - intros fieldName condition Hin.
    destruct (buildWhereObject_from_result where_ [] whereObject Hr NoDup_nil_2)
      as [_ Hfrom].
    destruct (Hfrom _ Hin) as [[]|(key & value & c & Heq & Hkey & _)].
    inversion Heq; subst.
    destruct (Hkeys key value Hkey) as [type Htype].
    now destruct (registered_name_is_known entity key type Hcols Htype)
      as [_ Hcol].
  - unfold resolver. rewrite Hwhere.
    change (buildWhereObject where_) with (buildWhereObject_from [] where_).
    rewrite Hr. reflexivity.
  - reflexivity.
  - reflexivity.
Qed.

End PluralFieldProperties.

(** ** The generated entity types *)

Lemma join_empty_cons (x : string) (xs : list string) :
  join EmptyString (x :: xs) = x +:+ join EmptyString xs.
Proof.
  unfold join. destruct xs as [|y ys]; cbn [String.concat].
  - now rewrite append_empty_r.
  - reflexivity.
Qed.

Lemma join_empty_app (xs ys : list string) :
  join EmptyString (xs ++ ys) = join EmptyString xs +:+ join EmptyString ys.
Proof.
  induction xs as [|x xs IH]; [reflexivity|].
  change ((x :: xs) ++ ys) with (x :: (xs ++ ys)).
  now rewrite !join_empty_cons, IH, append_assoc.
Qed.

(** X20: the text that [buildEntityTypes] generates.  No entity gives the
    empty text, and the text for a list of entities is the text for the first
    entities followed by the text for the others, with nothing between two
    types.  The type of one entity is the line [export type], its name and
    the opening brace, then a line with the texts of its columns in the order
    of its keys and with nothing between them, then a line with the closing
    brace and a semicolon, the last two lines indented by eight spaces.  The
    text of a column is its key, a question mark when it is optional, a colon
    and a space, the type of its scalar, a pair of brackets when it is a
    list, and a semicolon; so the columns of the scalars [int] and [float]
    get the same text. *)
Theorem buildEntityTypes_text :
  buildEntityTypes [] = EmptyString
  ∧ (∀ entities more,
        buildEntityTypes (entities ++ more)
        = buildEntityTypes entities +:+ buildEntityTypes more)
  ∧ (∀ name columns,
        buildEntityTypes [{| table_name := name; table_columns := columns |}]
        = "export type " +:+ name +:+ " = {" +:+ newline +:+ "        "
          +:+ join EmptyString (map columnType columns)
          +:+ newline +:+ "        };")
  ∧ (∀ columns more,
        join EmptyString (map columnType (columns ++ more))
        = join EmptyString (map columnType columns)
          +:+ join EmptyString (map columnType more))
  ∧ (∀ key type optional list,
        join EmptyString
          (map columnType
             [(key, {| column_type := type; column_optional := optional;
                       column_list := list |})])
        = key +:+ (if optional then "?" else EmptyString) +:+ ": "
          +:+ match type with
              | Sstring => "string"
              | Sint | Sfloat => "number"
              | Sboolean => "boolean"
              | Sbigint => "bigint"
              | Sbytes => "0x{string}"
              end
          +:+ (if list then "[]" else EmptyString) +:+ ";")
  ∧ (∀ key optional list,
        columnType (key, {| column_type := Sint; column_optional := optional;
                            column_list := list |})
        = columnType (key, {| column_type := Sfloat; column_optional := optional;
                              column_list := list |})).
Proof.
  split; [reflexivity|].
  split.
  { intros entities more. unfold buildEntityTypes. cbv zeta.
    now rewrite map_app, join_empty_app. }
  split.
  { intros name columns. unfold buildEntityTypes. cbv zeta. cbn [map].
    rewrite join_empty_cons. cbn [join String.concat].
    now rewrite append_empty_r. }
  split.
  { intros columns more. now rewrite map_app, join_empty_app. }
  split.
  { intros key type optional list. cbn [map]. rewrite join_empty_cons.
    cbn [join String.concat]. rewrite append_empty_r.
    unfold columnType, scalarToTsType. now destruct type. }
  reflexivity.
Qed.

(** ** Columns with an underscore in their name *)


Section UnderscoreColumns.

Variable G : Type.
Variable tsTypeToGqlScalar : Scalar → G.






End UnderscoreColumns.


(** * Further examples *)

Section MoreExamples.

Import Demo Fixtures.

(** Discharges, for a concrete row, the premise that the values of the
    list-kind fields parse. *)
Ltac row_parses :=
  let k := fresh "k" in
  let v := fresh "v" in
  let f := fresh "f" in
  let Hin := fresh "Hin" in
  let Hf := fresh "Hf" in
  let Hb := fresh "Hb" in
  let Hl := fresh "Hl" in
  intros k v f Hin Hf Hb Hl; simpl in Hin;
  repeat (destruct Hin as [Hin|Hin];
          [inversion Hin; subst k v; vm_compute in Hf;
           first [ discriminate Hf
                 | inversion Hf; subst f;
                   first [ discriminate Hl | discriminate Hb
                         | now exists (VArray []) ] ] |]);
  contradiction.

(** Discharges, for a concrete row, the premise that its properties have
    names that [Object.prototype] does not have. *)
Ltac row_names :=
  let k := fresh "k" in
  let v := fresh "v" in
  let Hin := fresh "Hin" in
  let Hnone := fresh "Hnone" in
  intros k v Hin Hnone; simpl in Hin;
  repeat (destruct Hin as [Hin|Hin]; [inversion Hin; subst; reflexivity|]);
  contradiction.

Lemma answering_accepts_all (answer : QueryResult) : @accepts_all (env answer).
Proof. intros statement values db. now exists answer, db. Defined.

(** The tables of the demo schema are dropped. *)
Lemma teardown_drops_every_table_witness :
  let st := initial no_row (Some demo_schema) [] in
  issued (snd (@teardown (env no_row) st))
  = [(dropStatement Owner, []); (dropStatement Pet, [])]
  ∧ schema (snd (@teardown (env no_row) st)) = Some demo_schema
  ∧ fst (@teardown (env no_row) st) = Ok tt.
Proof.
  cbv zeta.
  destruct (@teardown_drops_every_table (env no_row)
              (initial no_row (Some demo_schema) []))
    as (Hissued & Hschema & _ & Hok).
  split; [exact Hissued|]. split; [exact Hschema|].
  apply Hok, answering_accepts_all.
Defined.

(** A reload from the demo schema to a schema with pets only. *)
Lemma load_drops_then_creates_witness :
  let st := initial no_row (Some demo_schema) [] in
  fst (@load (env no_row) (Some pets_only) st) = Ok tt
  ∧ schema (snd (@load (env no_row) (Some pets_only) st)) = Some pets_only
  ∧ issued (snd (@load (env no_row) (Some pets_only) st))
    = [(dropStatement Owner, []); (dropStatement Pet, []);
       (createStatement Pet, [])].
Proof.
  exact (@load_drops_then_creates (env no_row)
           (initial no_row (Some demo_schema) []) (Some pets_only)
           (answering_accepts_all no_row)).
Defined.

(** A reload while the pool refuses every statement. *)
Lemma load_stops_when_teardown_fails_witness :
  let st := refusing_store (Some demo_schema) in
  fst (@load refusing (Some pets_only) st)
  = Throw (DatabaseError "connection refused")
  ∧ schema (snd (@load refusing (Some pets_only) st)) = Some demo_schema
  ∧ issued (snd (@load refusing (Some pets_only) st))
    = [(dropStatement Owner, []); (dropStatement Pet, [])].
Proof.
  exact (@load_stops_when_teardown_fails refusing
           (refusing_store (Some demo_schema)) demo_schema (Some pets_only)
           (DatabaseError "connection refused") eq_refl eq_refl).
Defined.

(** The caller's instance after a refused insert and a refused upsert. *)
Lemma insert_and_upsert_force_the_instance_id_witness :
  let st := @Build_State refusing (Some demo_schema) [bob] tt [] in
  heap (snd (@insertEntity refusing "Owner" "x" 0%nat st)) !! 0%nat
  = Some bob_stored
  ∧ heap (snd (@upsertEntity refusing "Owner" "x" 0%nat st)) !! 0%nat
    = Some bob_stored.
Proof.
  cbv zeta.
  destruct (@insert_and_upsert_force_the_instance_id refusing
              (@Build_State refusing (Some demo_schema) [bob] tt [])
              demo_schema "Owner" "x" 0%nat bob eq_refl eq_refl)
    as [[Hinsert _] [Hupsert _]].
  split; [exact Hinsert | exact Hupsert].
Defined.

(** What the operations on the row [x] of [Owner] send. *)
Lemma single_row_operations_bind_values_witness :
  let st := initial (one_row bob_stored) (Some demo_schema) [bob] in
  issued (snd (@getEntity (env (one_row bob_stored)) "Owner" "x" st))
  = [(selectStatement "Owner", [VString "x"])]
  ∧ issued (snd (@updateEntity (env (one_row bob_stored)) "Owner" "x" 0%nat st))
    = [("UPDATE " +:+ quoted "Owner" +:+ " SET name = $1 WHERE " +:+ quoted "id"
        +:+ " = $2 RETURNING *",
        [VString "bob"; VString "x"])].
Proof.
  cbv zeta.
  destruct (@single_row_operations_bind_values (env (one_row bob_stored))
              (initial (one_row bob_stored) (Some demo_schema) [bob])
              demo_schema "Owner" "x" 0%nat bob eq_refl eq_refl)
    as (Hget & _ & _ & Hupdate & _).
  split; [exact Hget | exact Hupdate].
Defined.

(** An [id] that no row has, of an entity that the schema does not have. *)
Lemma getEntity_null_without_row_witness :
  fst (@getEntity (env no_row) "Ghost" "x"
         (initial no_row (Some demo_schema) []))
  = Ok None.
Proof.
  exact (f_equal fst
           (@getEntity_null_without_row (env no_row)
              (initial no_row (Some demo_schema) []) demo_schema "Ghost" "x"
              no_row tt eq_refl eq_refl eq_refl)).
Defined.

(** The row of an owner. *)
Lemma getEntity_decodes_first_row_witness :
  ∃ d st' row',
    @getEntity (env (one_row owner_row)) "Owner" "x"
      (initial (one_row owner_row) (Some demo_schema) []) = (Ok (Some d), st')
    ∧ heap (initial (one_row owner_row) (Some demo_schema) []) !! d = None
    ∧ heap st' !! d = Some row'
    ∧ map_throwing (@decoded (env (one_row owner_row)) Owner) owner_row = Ok row'.
Proof.
  apply (@getEntity_decodes_first_row (env (one_row owner_row))
           (initial (one_row owner_row) (Some demo_schema) []) demo_schema
           Owner "Owner" "x" owner_row [] 0%nat tt).
  - reflexivity.
  - reflexivity.
  - reflexivity.
  - exact NoDup_keys_owner_row.
  - row_parses.
  - row_names.
Defined.

(** One row removed, and none. *)
Lemma deleteEntity_reports_one_row_witness :
  fst (@deleteEntity (env (one_row owner_row)) "Owner" "x"
         (initial (one_row owner_row) (Some demo_schema) []))
  = Ok true
  ∧ fst (@deleteEntity (env no_row) "Owner" "x"
           (initial no_row (Some demo_schema) []))
    = Ok false.
Proof.
  split.
  - exact (f_equal fst
             (@deleteEntity_reports_one_row (env (one_row owner_row))
                (initial (one_row owner_row) (Some demo_schema) [])
                demo_schema "Owner" "x" (one_row owner_row) tt eq_refl eq_refl)).
  - exact (f_equal fst
             (@deleteEntity_reports_one_row (env no_row)
                (initial no_row (Some demo_schema) [])
                demo_schema "Owner" "x" no_row tt eq_refl eq_refl)).
Defined.

(** Writes to the entity [Ghost], which the demo schema does not have. *)
Lemma writes_precede_the_entity_check_witness :
  let st := initial (one_row bob_stored) (Some demo_schema) [bob] in
  fst (@insertEntity (env (one_row bob_stored)) "Ghost" "x" 0%nat st)
  = Throw (EntityNotFoundForId "Ghost")
  ∧ fst (@updateEntity (env (one_row bob_stored)) "Ghost" "x" 0%nat st)
    = Throw (EntityNotFoundForId "Ghost")
  ∧ fst (@upsertEntity (env (one_row bob_stored)) "Ghost" "x" 0%nat st)
    = Throw (EntityNotFoundForId "Ghost").
Proof.
  cbv zeta.
  destruct (@writes_precede_the_entity_check (env (one_row bob_stored))
              (initial (one_row bob_stored) (Some demo_schema) [bob])
              demo_schema "Ghost" "x" 0%nat bob eq_refl eq_refl eq_refl)
    as (Hinsert & Hupdate & Hupsert).
  split; [|split].
  - exact (proj1 (Hinsert (one_row bob_stored) tt eq_refl)).
  - exact (proj1 (Hupdate (one_row bob_stored) tt eq_refl)).
  - exact (proj1 (Hupsert (one_row bob_stored) tt eq_refl)).
Defined.

(** An instance with the [id] [y], upserted under the [id] [x]. *)
Lemma upsertEntity_forces_id_witness :
  ∃ d st' row',
    @upsertEntity (env (one_row bob_stored)) "Owner" "x" 0%nat
      (initial (one_row bob_stored) (Some demo_schema) [bob]) = (Ok d, st')
    ∧ heap st' !! d = Some row'
    ∧ map_throwing (@decoded (env (one_row bob_stored)) Owner) bob_stored
      = Ok row'
    ∧ obj_get "id" row' = Some (VString "x")
    ∧ ∀ p, In p (updatePairs_of
                   (@getColumnValuePairs (env (one_row bob_stored))
                      (obj_set "id" (VString "x") bob))) →
           column p ≠ "id".
Proof.
  apply (@upsertEntity_forces_id (env (one_row bob_stored))
           (initial (one_row bob_stored) (Some demo_schema) [bob])
           demo_schema Owner "Owner" "x" 0%nat bob bob_stored [] 1%nat tt).
  - reflexivity.
  - reflexivity.
  - reflexivity.
  - exact stub_pairs_keep_id.
  - cbv zeta. split; [reflexivity|].
    intros p Hin. simpl in Hin.
    repeat (destruct Hin as [Hin|Hin]; [subst p; reflexivity|]).
    contradiction.
  - exact NoDup_keys_bob_stored.
  - row_parses.
  - row_names.
  - intros field Hf. vm_compute in Hf. inversion Hf; subst field.
    split; reflexivity.
Defined.


(** A where with a known condition and then an unknown one. *)
Lemma buildWhereObject_fails_on_unknown_condition_witness :
  ∃ pre key value post,
    [("age_gt", VNumber 1); ("age_zzz", VNumber 2)] = pre ++ (key, value) :: post
    ∧ (∀ k v, In (k, v) pre →
              is_Some (storeCondition_at (filterType_of k)))
    ∧ storeCondition_at (filterType_of key) = None
    ∧ Error "Invalid query: Unknown where condition: age_zzz"
      = Error ("Invalid query: Unknown where condition: " +:+ key).
Proof.
  exact (proj2 (proj2 (buildWhereObject_fails_on_unknown_condition
                         [("age_gt", VNumber 1); ("age_zzz", VNumber 2)]))
           (Error "Invalid query: Unknown where condition: age_zzz") eq_refl).
Defined.

(** The where-object of two conditions on two fields. *)
Lemma buildWhereObject_result_witness :
  NoDup (map fst [("age", ("gt", VNumber 17)); ("name", ("contains", VString "bo"))])
  ∧ has_underscore "age" = false.
Proof.
  destruct (buildWhereObject_result adults_named
              [("age", ("gt", VNumber 17)); ("name", ("contains", VString "bo"))]
              eq_refl) as [Hnd Hfields].
  split; [exact Hnd|].
  exact (proj1 (Hfields "age" "gt" (VNumber 17) (or_introl eq_refl))).
Defined.

(** Two conditions on the same field: the second remains. *)
Lemma buildWhereObject_last_entry_wins_witness :
  ∃ storeCondition,
    storeCondition_at (filterType_of "age_lt") = Some storeCondition
    ∧ obj_get (fieldName_of "age_lt") [("age", ("lt", VNumber 5))]
      = Some (storeCondition, VNumber 5).
Proof.
  apply (buildWhereObject_last_entry_wins [("age_gt", VNumber 1)] [] "age_lt"
           (VNumber 5) [("age", ("lt", VNumber 5))] eq_refl).
  intros k v [].
Defined.

(** A suffix that is the name of a member of [Object.prototype] is taken
    for a condition: the lookup finds the member. *)
Example inherited_condition_is_accepted :
  buildWhereObject [("age_constructor", VNumber 1)]
  = Ok [("age", ("function Object() { [native code] }", VNumber 1))]
  ∧ buildWhereObject [("age_zzz", VNumber 1)]
    = Throw (Error "Invalid query: Unknown where condition: age_zzz").
Proof. split; vm_compute; reflexivity. Qed.

(** A row with a column of the name [constructor], which is no field of
    [Owner]: the calls that decode it fail. *)
Example row_with_inherited_name_is_not_decoded :
  let row := [("id", VString "x"); ("constructor", VNumber 7)] in
  fst (@getEntity (env (one_row row)) "Owner" "x"
         (initial (one_row row) (Some demo_schema) []))
  = Throw (TypeError "Cannot read properties of undefined (reading 'toString')")
  ∧ fst (@getEntities (env (one_row row)) "Owner" None
           (initial (one_row row) (Some demo_schema) []))
    = Throw (TypeError "Cannot read properties of undefined (reading 'toString')").
Proof. cbv zeta. split; vm_compute; reflexivity. Qed.

(** The types of the tables [Owner] and [Pet]. *)
Lemma buildEntityTypes_text_witness :
  buildEntityTypes [owner_table; pet_table]
  = "export type Owner = {" +:+ newline
    +:+ "        name: string;age: number;tags?: string[];" +:+ newline
    +:+ "        };export type Pet = {" +:+ newline
    +:+ "        owner_id: string;" +:+ newline
    +:+ "        };".
Proof.
  exact (eq_trans
           (proj1 (proj2 buildEntityTypes_text) [owner_table] [pet_table])
           eq_refl).
Defined.

(** A where on the columns [age] and [name] of [Owner]. *)
Lemma registered_filters_are_accepted_witness :
  ∃ whereObject findManyArgs,
    buildWhereObject adults_named = Ok whereObject
    ∧ (∀ fieldName condition,
          In (fieldName, condition) whereObject →
          ∃ key col,
            In (key, col) (table_columns owner_table)
            ∧ (fieldName = tsTypeToGqlField key ∨ fieldName = key))
    ∧ resolver FindManyArgs Ok owner_table (plural_args adults_named)
      = Ok findManyArgs
    ∧ findMany_where findManyArgs = Some whereObject
    ∧ findMany_modelName findManyArgs = "Owner".
Proof.
  apply (registered_filters_are_accepted Scalar (fun t => t) FindManyArgs Ok
           owner_table (plural_args adults_named) adults_named).
  - intros key col Hin. simpl in Hin.
    repeat (destruct Hin as [Hin|Hin]; [inversion Hin; reflexivity|]).
    contradiction.
  - intros k v Hin. simpl in Hin.
    repeat (destruct Hin as [Hin|Hin];
            [inversion Hin; subst k v; exists (OfScalar Sint) + exists (OfScalar Sstring);
             vm_compute; tauto |]).
    contradiction.
  - reflexivity.
Defined.


End MoreExamples.
